(** * Dejavu audio fingerprinting: hash generation, alignment and ingestion

    A shallow embedding of [dejavu/fingerprint.py], [dejavu/__init__.py] and
    [dejavu/decoder.py].  Python integers are [Z], tuples are pairs, generators
    are the lists of the values they yield (in order), dictionaries are
    [gmap]s and sets are [gset]s.  A call that can raise returns an
    [outcome]: its value, or the exception. *)

From Stdlib Require Import ZArith Lia List String Ascii DecimalString DecimalZ DecimalPos SpecFloat.
From stdpp Require Import base decidable list sorting gmap strings.

Local Open Scope Z_scope.

(** ** [hashlib.sha1] (FIPS 180-4), on bytes given as integers in [0, 256) *)

Module SHA1.

Definition w32 (x : Z) : Z := Z.land x 0xFFFFFFFF.

Definition add32 (a b : Z) : Z := w32 (a + b).

Definition rotl (n x : Z) : Z :=
  w32 (Z.lor (Z.shiftl x n) (Z.shiftr x (32 - n))).

(** Big-endian bytes of [x], [n] of them. *)
Fixpoint be_bytes (n : nat) (x : Z) : list Z :=
  match n with
  | O => []
  | S n' => Z.land (Z.shiftr x (8 * Z.of_nat n')) 0xFF :: be_bytes n' x
  end.

Fixpoint be_word (bs : list Z) (acc : Z) : Z :=
  match bs with
  | [] => acc
  | b :: bs' => be_word bs' (Z.lor (Z.shiftl acc 8) b)
  end.

(** The message, a 1 bit, zeros up to 56 mod 64, then the bit length. *)
Definition pad (msg : list Z) : list Z :=
  let len := Z.of_nat (length msg) in
  let zeros := Z.to_nat ((55 - len) mod 64) in
  msg ++ [0x80] ++ replicate zeros 0 ++ be_bytes 8 (8 * len).

Fixpoint chunks (fuel : nat) (n : nat) (l : list Z) : list (list Z) :=
  match fuel, l with
  | _, [] => []
  | O, _ => []
  | S fuel', _ => take n l :: chunks fuel' n (drop n l)
  end.

Definition words_of_block (block : list Z) : list Z :=
  (fun bs => be_word bs 0) <$> chunks 16 4 block.

Definition nthw (w : list Z) (t : nat) : Z := nth t w 0.

(** The message schedule, extended from 16 to 80 words. *)
Fixpoint schedule (n : nat) (w : list Z) : list Z :=
  match n with
  | O => w
  | S n' =>
      let t := length w in
      let x := Z.lxor (Z.lxor (nthw w (t - 3)) (nthw w (t - 8)))
                      (Z.lxor (nthw w (t - 14)) (nthw w (t - 16))) in
      schedule n' (w ++ [rotl 1 x])
  end.

Record state := State { h0 : Z; h1 : Z; h2 : Z; h3 : Z; h4 : Z }.

Definition init : state :=
  State 0x67452301 0xEFCDAB89 0x98BADCFE 0x10325476 0xC3D2E1F0.

Definition f_k (t : nat) (b c d : Z) : Z * Z :=
  if (t <? 20)%nat then
    (Z.lor (Z.land b c) (Z.land (Z.lxor b 0xFFFFFFFF) d), 0x5A827999)
  else if (t <? 40)%nat then
    (Z.lxor (Z.lxor b c) d, 0x6ED9EBA1)
  else if (t <? 60)%nat then
    (Z.lor (Z.lor (Z.land b c) (Z.land b d)) (Z.land c d), 0x8F1BBCDC)
  else
    (Z.lxor (Z.lxor b c) d, 0xCA62C1D6).

Definition round (s : state) (tw : nat * Z) : state :=
  let '(t, wt) := tw in
  let '(State a b c d e) := s in
  let '(f, k) := f_k t b c d in
  let temp := add32 (add32 (add32 (add32 (rotl 5 a) f) e) k) wt in
  State temp a (rotl 30 b) c d.

Definition compress (s : state) (block : list Z) : state :=
  let w := schedule 64 (words_of_block block) in
  let '(State a b c d e) := foldl round s (imap pair w) in
  State (add32 (h0 s) a) (add32 (h1 s) b) (add32 (h2 s) c)
        (add32 (h3 s) d) (add32 (h4 s) e).

Definition digest (msg : list Z) : state :=
  let p := pad msg in
  foldl compress init (chunks (length p) 64 p).

Definition hex_digit (x : Z) : ascii :=
  nth (Z.to_nat (Z.land x 15)) (list_ascii_of_string "0123456789abcdef") "0"%char.

(** Eight lowercase hex digits of a 32-bit word, most significant first. *)
Definition hex_word (w : Z) : list ascii :=
  (fun k => hex_digit (Z.shiftr w (4 * Z.of_nat k))) <$> [7; 6; 5; 4; 3; 2; 1; 0]%nat.

Definition hex_state (s : state) : list ascii :=
  hex_word (h0 s) ++ hex_word (h1 s) ++ hex_word (h2 s)
    ++ hex_word (h3 s) ++ hex_word (h4 s).

(** [hashlib.sha1(); h.update(bytes); h.hexdigest()] *)
Definition hexdigest (msg : list Z) : string :=
  string_of_list_ascii (hex_state (digest msg)).

End SHA1.

(** [s.encode('utf-8')] for a string of ASCII characters. *)
Definition encode_utf8 (s : string) : list Z :=
  (fun c => Z.of_N (N_of_ascii c)) <$> list_ascii_of_string s.

Definition sha1_hex (s : string) : string := SHA1.hexdigest (encode_utf8 s).

(** ** [fingerprint.py]: constants *)

(** Python floats are IEEE 754 binary64 values; [SpecFloat] gives their
    arithmetic (round to nearest, ties to even) on mantissa and exponent. *)
Definition float : Type := spec_float.
Definition prec : Z := 53.
Definition emax : Z := 1024.

Definition DEFAULT_FS : Z := 44100.
Definition DEFAULT_WINDOW_SIZE : Z := 4096.
(** [0.5] *)
Definition DEFAULT_OVERLAP_RATIO : float := S754_finite false (2 ^ 52) (-53).
Definition DEFAULT_FAN_VALUE : Z := 15.
Definition MIN_HASH_TIME_DELTA : Z := 0.
Definition MAX_HASH_TIME_DELTA : Z := 200.
Definition FINGERPRINT_REDUCTION : nat := 20.

(** ** [fingerprint.py]: [generate_hashes] *)

(** A peak is the tuple [(frequency bin, time bin)]; [p.1] is
    [p[IDX_FREQ_I]] and [p.2] is [p[IDX_TIME_J]]. *)
Definition peak : Type := Z * Z.

(** A yielded record [(h.hexdigest()[0:FINGERPRINT_REDUCTION], t1)]. *)
Definition hash_record : Type := string * Z.

(** [str(n)] for an integer. *)
Definition str (n : Z) : string := NilZero.string_of_int (Z.to_int n).

(** Python compares tuples lexicographically; this is [p <= q]. *)
Definition peak_le (p q : peak) : Prop := p.1 < q.1 ∨ (p.1 = q.1 ∧ p.2 ≤ q.2).

Global Instance peak_le_dec : RelDecision peak_le.
Proof. intros p q. unfold peak_le. apply _. Defined.

(** [peaks.sort()]: the list sorted ascending for the tuple order. *)
Definition sort (peaks : list peak) : list peak := merge_sort peak_le peaks.

(** [range(1, fan_value)] *)
Definition fan_range (fan_value : Z) : list nat := seq 1 (Z.to_nat fan_value - 1).

Definition generate_hashes (peaks : list peak) (fan_value : Z) : list hash_record :=
  let peaks := sort peaks in
  i ← seq 0 (length peaks);
  j ← fan_range fan_value;
  if (i + j <? length peaks)%nat then
    match peaks !! i, peaks !! (i + j)%nat with
    | Some (freq1, t1), Some (freq2, t2) =>
        let t_delta := t2 - t1 in
        let maybe_hash := str freq1 +:+ "|" +:+ str freq2 +:+ "|" +:+ str t_delta in
        if (MIN_HASH_TIME_DELTA <=? t_delta) && (t_delta <=? MAX_HASH_TIME_DELTA) then
          [(substring 0 FINGERPRINT_REDUCTION (sha1_hex maybe_hash), t1)]
        else []
    | _, _ => [] (* not reached: both indices are below [len(peaks)] *)
    end
  else [].

(** *** The hash contract in the specification's words

    Each peak of the sorted list is an anchor; its target zone is the next
    [fan_value - 1] peaks; a pair is kept when its time delta is in bounds. *)

Definition t_delta (pair : peak * peak) : Z := pair.2.2 - pair.1.2.

Definition delta_in_bounds (pair : peak * peak) : Prop :=
  MIN_HASH_TIME_DELTA ≤ t_delta pair ≤ MAX_HASH_TIME_DELTA.

Global Instance delta_in_bounds_dec pair : Decision (delta_in_bounds pair).
Proof. unfold delta_in_bounds. apply _. Defined.

(** The landmark descriptor ["freq1|freq2|dt"] of an (anchor, target) pair. *)
Definition descriptor (pair : peak * peak) : string :=
  str pair.1.1 +:+ "|" +:+ str pair.2.1 +:+ "|" +:+ str (t_delta pair).

Definition record_of (pair : peak * peak) : hash_record :=
  (substring 0 20 (sha1_hex (descriptor pair)), pair.1.2).

Fixpoint target_zone_pairs (zone : nat) (sorted : list peak) : list (peak * peak) :=
  match sorted with
  | [] => []
  | anchor :: rest => (pair anchor <$> take zone rest) ++ target_zone_pairs zone rest
  end.

Definition is_lower_hex (c : ascii) : bool :=
  let n := nat_of_ascii c in
  ((48 <=? n) && (n <=? 57) || (97 <=? n) && (n <=? 102))%nat.

(** What the loop body yields for an anchor and a target. *)
Definition emit (anchor target : peak) : list hash_record :=
  if decide (delta_in_bounds (anchor, target)) then [record_of (anchor, target)] else [].

Definition loop_body (peaks : list peak) (i j : nat) : list hash_record :=
  if (i + j <? length peaks)%nat then
    match peaks !! i, peaks !! (i + j)%nat with
    | Some anchor, Some target => emit anchor target
    | _, _ => []
    end
  else [].

(** ** Exceptions *)

(** The exceptions of the modelled code. *)
Inductive exn := AttributeError | OverflowError | ValueError | TypeError | MemoryError.

(** The result of a call: the value returned, or the exception raised. *)
Inductive outcome (A : Type) := Ok (a : A) | Raise (e : exn).
Global Arguments Ok {A} a.
Global Arguments Raise {A} e.

(** ** Python float operations used by [align_matches] *)

(** The double nearest to the integer [n], ties to even: the value of
    [float(n)], and of an integer operand of [/] and [*], where the
    conversion succeeds.  Beyond the range of a double it is an infinity. *)
Definition float_of_int (n : Z) : float := binary_normalize prec emax n 0 false.

(** [float(n)]: [OverflowError] (int too large to convert to float) where
    the nearest double is not finite. *)
Definition py_float (n : Z) : outcome float :=
  match float_of_int n with
  | S754_infinity _ => Raise OverflowError
  | x => Ok x
  end.

Definition fdiv (x y : float) : float := SFdiv prec emax x y.
Definition fmul (x y : float) : float := SFmul prec emax x y.

(** [round(x, ndigits)] for [ndigits >= 0]: the value of [x] is rounded to
    [ndigits] decimals exactly (ties to even), and the double nearest to that
    decimal is returned. *)
Definition py_round (x : float) (ndigits : Z) : float :=
  match x with
  | S754_finite s m e =>
      if 0 <=? e then x
      else
        let num := Z.pos m * 10 ^ ndigits in
        let den := 2 ^ (- e) in
        let q := num / den in
        let q := match 2 * (num mod den) ?= den with
                 | Lt => q
                 | Gt => q + 1
                 | Eq => if Z.even q then q else q + 1
                 end in
        match q with
        | Z0 => S754_zero s
        | _ =>
            let '(mz, ez, lz) := SFdiv_core_binary prec emax q 0 (10 ^ ndigits) 0 in
            binary_round_aux prec emax s mz ez lz
        end
  | _ => x
  end.

(** ** [__init__.py]: [Dejavu.align_matches] *)

(** Modelled from the spec: the row [get_song_by_id] returns, [{song_name,
    file_sha1}]; the catalog store ([dejavu/database.py]) is not among the
    sources.  A catalog is the function [song_id -> row or null]. *)
Record song_row := SongRow { row_song_name : string; row_file_sha1 : string }.

Definition catalog : Type := Z → option song_row.

(** The local variables of the loop. [diff_counter[diff][sid]] is a count. *)
Record align_state := AlignState {
  diff_counter : gmap Z (gmap Z Z);
  largest : Z;
  largest_count : Z;
  song_id : Z
}.

Definition align_init : align_state := AlignState ∅ 0 0 (-1).

(** One iteration of [for tup in matches], with [tup = (sid, diff)]. *)
Definition align_step (st : align_state) (tup : Z * Z) : align_state :=
  let '(sid, diff) := tup in
  let dc := diff_counter st in
  let dc := match dc !! diff with None => <[diff := ∅]> dc | Some _ => dc end in
  let row := dc !!! diff in
  let row := match row !! sid with None => <[sid := 0]> row | Some _ => row end in
  let count := row !!! sid + 1 in
  let dc := <[diff := <[sid := count]> row]> dc in
  if largest_count st <? count then AlignState dc diff count sid
  else AlignState dc (largest st) (largest_count st) (song_id st).

Definition align_loop (matches : list (Z * Z)) : align_state :=
  foldl align_step align_init matches.

(** The returned dictionary. *)
Record match_info := MatchInfo {
  SONG_ID : Z;
  SONG_NAME : string;
  CONFIDENCE : Z;
  OFFSET : Z;
  OFFSET_SECS : float;
  FIELD_FILE_SHA1 : string
}.

(** [round(float(largest) / DEFAULT_FS * DEFAULT_WINDOW_SIZE *
    DEFAULT_OVERLAP_RATIO, 5)] *)
Definition nseconds (largest : Z) : outcome float :=
  match py_float largest with
  | Ok x =>
      Ok (py_round
            (fmul (fmul (fdiv x (float_of_int DEFAULT_FS))
                        (float_of_int DEFAULT_WINDOW_SIZE))
                  DEFAULT_OVERLAP_RATIO)
            5)
  | Raise e => Raise e
  end.

(** The song is looked up before the offset is converted: a missing row
    gives [None] whatever [largest] is, and [float(largest)] raises only
    for a song that has a row. *)
Definition align_matches (get_song_by_id : catalog) (matches : list (Z * Z))
    : outcome (option match_info) :=
  let st := align_loop matches in
  match get_song_by_id (song_id st) with
  | Some song =>
      let songname := row_song_name song in
      match nseconds (largest st) with
      | Ok nseconds =>
          Ok (Some (MatchInfo (song_id st) songname (largest_count st) (largest st)
                              nseconds (row_file_sha1 song)))
      | Raise e => Raise e
      end
  | None => Ok None
  end.

(** *** The tally in the specification's words *)

(** The number of occurrences of the pair [(sid, diff)] in [matches]. *)
Definition tally (matches : list (Z * Z)) (sid diff : Z) : Z :=
  Z.of_nat (length (filter (fun tup => tup = (sid, diff)) matches)).

(** [diff_counter[diff][sid]], read as 0 where there is no entry. *)
Definition counter_get (dc : gmap Z (gmap Z Z)) (diff sid : Z) : Z :=
  default 0 (dc !! diff ≫= fun row => row !! sid).

(** The running best [(largest, largest_count, song_id)]. *)
Definition best (st : align_state) : Z * Z * Z :=
  (largest st, largest_count st, song_id st).

(** *** The offset in seconds with the division last

    The specification writes the conversion as
    [round(delta * 4096 * 0.5 / 44100, 5)]; this is that expression in
    binary64 arithmetic, evaluated from left to right. *)
Definition seconds_div_first (largest : Z) : float :=
  fmul (fmul (fdiv (float_of_int largest) (float_of_int DEFAULT_FS))
             (float_of_int DEFAULT_WINDOW_SIZE))
       DEFAULT_OVERLAP_RATIO.

Definition seconds_div_last (largest : Z) : float :=
  fdiv (fmul (fmul (float_of_int largest) (float_of_int DEFAULT_WINDOW_SIZE))
             DEFAULT_OVERLAP_RATIO)
       (float_of_int DEFAULT_FS).

Definition spec_offset_seconds (delta : Z) : float :=
  py_round (seconds_div_last delta) 5.

(** Multiplying by [2 ^ k]: the exponent moves, or the value overflows. *)
Definition SFscale (k : Z) (x : float) : float :=
  match x with
  | S754_finite s m e => if e + k <=? 971 then S754_finite s m (e + k) else S754_infinity s
  | _ => x
  end.

(** A catalog with a row for the song 1 only. *)
Definition catalog_with_song_one : catalog :=
  fun sid => if decide (sid = 1) then Some (SongRow "song" "ABCD") else None.

(** ** [decoder.py] *)

(** A [pydub.AudioSegment]: [seg_samples] is [np.fromstring(seg._data,
    np.int16)], the interleaved 16-bit samples. *)
Record AudioSegment := {
  seg_samples : list Z;
  seg_channels : nat;
  seg_frame_rate : Z
}.

(** The array [wavio.readwav] returns, of shape [(frames, channels)]. *)
Record wav_array := { wav_nchannels : nat; wav_rows : list (list Z) }.

(** [AudioSegment.from_file(filename)] either decodes the file or raises
    [audioop.error], the exception [read] catches. *)
Inductive from_file_result := Decoded (seg : AudioSegment) | audioop_error.

(** What [read] gets from the file system and from pydub and wavio. *)
Record backends := {
  from_file : string → from_file_result;
  (** [seg[:ms]], pydub's slice of the first [ms] milliseconds *)
  seg_prefix : AudioSegment → Z → AudioSegment;
  (** [seg[:s]] for a string [s], as pydub answers it *)
  seg_prefix_str : AudioSegment → string → outcome AudioSegment;
  (** [wavio.readwav(filename)]: rate, sample width and array *)
  readwav : string → Z * Z * wav_array;
  (** [a[:s]] for a string [s], as numpy answers it *)
  array_prefix_str : wav_array → string → outcome wav_array;
  (** the bytes of the file *)
  file_bytes : string → list Z;
  (** [os.path.splitext(os.path.basename(filename))[0]] *)
  path_to_songname : string → string
}.

Definition upper_ascii (c : ascii) : ascii :=
  let n := nat_of_ascii c in
  if ((97 <=? n) && (n <=? 122))%nat then ascii_of_nat (n - 32) else c.

Fixpoint upper (s : string) : string :=
  match s with
  | EmptyString => EmptyString
  | String c s' => String (upper_ascii c) (upper s')
  end.

(** The file is hashed block by block; updating a SHA-1 object with
    consecutive blocks hashes their concatenation. *)
Definition unique_hash (B : backends) (filepath : string) : string :=
  upper (SHA1.hexdigest (file_bytes B filepath)).

(** [if limit:] for [limit] an integer or [None]. *)
Definition truthy (limit : option Z) : bool :=
  match limit with
  | None => false
  | Some n => negb (n =? 0)
  end.

(** [a[:n]] on a list or on the rows of an array. *)
Definition slice_to {A} (l : list A) (n : Z) : list A :=
  if n <? 0 then take (length l - Z.to_nat (- n)) l else take (Z.to_nat n) l.

(** [data[start::step]] for [step >= 1]. *)
Definition stride {A} (data : list A) (start step : nat) : list A :=
  omap (fun k => data !! (start + k * step)%nat) (seq 0 (length data)).

(** [x.astype(np.int16)] wraps into [-2**15, 2**15). *)
Definition to_int16 (x : Z) : Z := (x + 2 ^ 15) mod 2 ^ 16 - 2 ^ 15.

(** The rows of [a.T]. *)
Definition transpose (a : wav_array) : list (list Z) :=
  (fun c => (fun row => nth c row 0) <$> wav_rows a) <$> seq 0 (wav_nchannels a).

(** [data[chn::channels] for chn in range(channels)], the channels of a
    decoded segment. *)
Definition channels_of (audiofile : AudioSegment) : list (list Z) :=
  (fun chn => stride (seg_samples audiofile) chn (seg_channels audiofile))
    <$> seq 0 (seg_channels audiofile).

(** The [channels] list the [except audioop.error] branch of [read] builds. *)
Definition wavio_channels (audiofile : wav_array) (limit : option Z) : list (list Z) :=
  let audiofile :=
    match limit with
    | Some n =>
        if truthy limit
        then {| wav_nchannels := wav_nchannels audiofile;
                wav_rows := slice_to (wav_rows audiofile) (n * 1000) |}
        else audiofile
    | None => audiofile
    end in
  (fun chn : list Z => to_int16 <$> chn) <$> transpose audiofile.

Definition read (B : backends) (filename : string) (limit : option Z)
    : outcome (list (list Z) * Z * string) :=
  match from_file B filename with
  | Decoded audiofile =>
      let audiofile :=
        match limit with
        | Some n => if truthy limit then seg_prefix B audiofile (n * 1000) else audiofile
        | None => audiofile
        end in
      let channels := channels_of audiofile in
      let fs := seg_frame_rate audiofile in
      Ok (channels, seg_frame_rate audiofile, unique_hash B filename)
  | audioop_error =>
      let '(fs, _, audiofile) := readwav B filename in
      let channels := wavio_channels audiofile limit in
      (* [audiofile] is now a numpy array: [audiofile.frame_rate] *)
      Raise AttributeError
  end.

(** [if limit:] for a string: false for the empty string only. *)
Definition truthy_str (limit : string) : bool :=
  match limit with
  | EmptyString => false
  | String _ _ => true
  end.

(** [s * n] for a string [s]: [n] copies of it. *)
Fixpoint str_times (s : string) (n : nat) : string :=
  match n with
  | O => EmptyString
  | S n' => s +:+ str_times s n'
  end.

(** [read(filename, limit)] where [limit] is a string, as the worker passes
    it for a path of two characters. *)
Definition read_str (B : backends) (filename : string) (limit : string)
    : outcome (list (list Z) * Z * string) :=
  match from_file B filename with
  | Decoded audiofile =>
      let sliced :=
        if truthy_str limit
        then seg_prefix_str B audiofile (str_times limit (Z.to_nat 1000))
        else Ok audiofile in
      match sliced with
      | Ok audiofile =>
          let channels := channels_of audiofile in
          Ok (channels, seg_frame_rate audiofile, unique_hash B filename)
      | Raise e => Raise e
      end
  | audioop_error =>
      let '(fs, _, audiofile) := readwav B filename in
      let sliced :=
        if truthy_str limit
        then array_prefix_str B audiofile (str_times limit (Z.to_nat 1000))
        else Ok audiofile in
      match sliced with
      | Ok audiofile => Raise AttributeError
      | Raise e => Raise e
      end
  end.

(** ** [__init__.py]: the fingerprint limit and the worker *)

(** [self.limit] as [Dejavu.__init__] sets it from
    [config.get("fingerprint_limit", None)]. *)
Definition Dejavu_limit (fingerprint_limit : option Z) : option Z :=
  if decide (fingerprint_limit = Some (-1)) then None else fingerprint_limit.

(** [fingerprint(channel_samples, Fs)] with the default window, overlap, fan
    value and amplitude floor.  [local_maxima] is the numerical front end:
    [get_2D_peaks] of the log spectrogram that [mlab.specgram] computes. *)
Definition fingerprint (local_maxima : list Z → Z → list peak)
    (channel_samples : list Z) (Fs : Z) : list hash_record :=
  generate_hashes (local_maxima channel_samples Fs) DEFAULT_FAN_VALUE.

(** [song_name or songname] *)
Definition or_songname (song_name : option string) (songname : string) : string :=
  match song_name with
  | Some n => if decide (n = EmptyString) then songname else n
  | None => songname
  end.

(** The first argument of the worker: the path [fingerprint_file] passes, or
    the tuple [(filename, limit)] that [fingerprint_directory] sends through
    [Pool.imap_unordered]. *)
Inductive worker_arg :=
  | Path (filename : string)
  | Pair (filename : string) (limit : option Z).

(** The limit after the unpacking: [None] or an integer, or a string. *)
Inductive limit_value :=
  | IntLimit (limit : option Z)
  | StrLimit (limit : string).

(** [try: filename, limit = filename / except ValueError: pass]: a tuple is
    unpacked; so is a string of exactly two characters, into its first and
    its second character; any other string raises [ValueError] and is left
    as it is, with the limit given. *)
Definition unpack (filename : worker_arg) (limit : option Z) : string * limit_value :=
  match filename with
  | Pair filename limit => (filename, IntLimit limit)
  | Path (String c1 (String c2 EmptyString)) =>
      (String c1 EmptyString, StrLimit (String c2 EmptyString))
  | Path filename => (filename, IntLimit limit)
  end.

(** [decoder.read(filename, limit)] *)
Definition read_any (B : backends) (filename : string) (limit : limit_value)
    : outcome (list (list Z) * Z * string) :=
  match limit with
  | IntLimit limit => read B filename limit
  | StrLimit limit => read_str B filename limit
  end.

Definition _fingerprint_worker (B : backends) (local_maxima : list Z → Z → list peak)
    (filename : worker_arg) (limit : option Z) (song_name : option string)
    : outcome (string * gset hash_record * string) :=
  let '(filename, limit) := unpack filename limit in
  let songname := path_to_songname B filename in
  let song_name := or_songname song_name songname in
  match read_any B filename limit with
  | Ok (channels, Fs, file_hash) =>
      let result :=
        foldl (fun result channel =>
                 let hashes := fingerprint local_maxima channel Fs in
                 result ∪ list_to_set hashes)
              ∅ channels in
      Ok (song_name, result, file_hash)
  | Raise e => Raise e
  end.

(** A stereo file whose two channels carry the same peaks. *)
Definition stereo_backends : backends := {|
  from_file := fun _ =>
    Decoded {| seg_samples := [1; 2; 3; 4]; seg_channels := 2; seg_frame_rate := 44100 |};
  seg_prefix := fun seg _ => seg;
  seg_prefix_str := fun _ _ => Raise TypeError;
  readwav := fun _ => (44100, 2, {| wav_nchannels := 2; wav_rows := [] |});
  array_prefix_str := fun _ _ => Raise TypeError;
  file_bytes := fun _ => [];
  path_to_songname := fun _ => "song"%string
|}.

(** A mono file of two seconds at four frames a second, with a slice that
    keeps the frames of the first [ms] milliseconds. *)
Definition two_second_backends : backends := {|
  from_file := fun _ =>
    Decoded {| seg_samples := [1; 2; 3; 4; 5; 6; 7; 8]; seg_channels := 1;
               seg_frame_rate := 4 |};
  seg_prefix := fun seg ms =>
    {| seg_samples :=
         slice_to (seg_samples seg)
                  (ms * seg_frame_rate seg / 1000 * Z.of_nat (seg_channels seg));
       seg_channels := seg_channels seg;
       seg_frame_rate := seg_frame_rate seg |};
  seg_prefix_str := fun _ _ => Raise TypeError;
  readwav := fun _ => (4, 2, {| wav_nchannels := 1; wav_rows := [] |});
  array_prefix_str := fun _ _ => Raise TypeError;
  file_bytes := fun _ => [];
  path_to_songname := fun _ => "tone"%string
|}.

(** ** [__init__.py]: [chunkify] *)

(** [[lst[i::n] for i in range(n)]] *)
Definition chunkify {A} (lst : list A) (n : Z) : list (list A) :=
  (fun i => stride lst i (Z.to_nat n)) <$> seq 0 (Z.to_nat n).

(** The slices [l[i::n]] for [i] in [range(n)], with [n] a length. *)
Definition strides {A} (l : list A) (n : nat) : list (list A) :=
  (fun i => stride l i n) <$> seq 0 n.


(** ** [decoder.py]: the read loop of [unique_hash] *)





Definition is_upper_hex (c : ascii) : bool :=
  let n := nat_of_ascii c in
  ((48 <=? n) && (n <=? 57) || (65 <=? n) && (n <=? 70))%nat.

(** ** Shifting a constellation in time *)

(** The peak [c] time bins later, and the record with its offset [c] later. *)
Definition shift_peak (c : Z) (p : peak) : peak := (p.1, p.2 + c).
Definition shift_record (c : Z) (r : hash_record) : hash_record := (r.1, r.2 + c).

(** ** [fingerprint.py]: [get_2D_peaks] *)

(** The filters of [scipy.ndimage] that [get_2D_peaks] applies, with the
    footprint [iterate_structure(generate_binary_structure(2, 1),
    PEAK_NEIGHBORHOOD_SIZE)] fixed: [maximum_filter(arr2D,
    footprint=neighborhood)] and [binary_erosion(background,
    structure=neighborhood, border_value=1)]. *)
Record scipy := {
  maximum_filter : list (list float) → list (list float);
  binary_erosion : list (list bool) → list (list bool)
}.

(** An operator applied cell by cell to two arrays of one shape. *)
Definition elementwise {A B C} (f : A → B → C) (a : list (list A)) (b : list (list B))
    : list (list C) :=
  zip_with (zip_with f) a b.

(** [a[j][i]] *)
Definition cell {A} (a : list (list A)) (j i : nat) : option A :=
  a !! j ≫= fun row => row !! i.

(** The columns of the true cells of one row of a mask. *)
Definition true_columns (row : list bool) : list nat :=
  filter (fun i => row !! i = Some true) (seq 0 (length row)).

(** The true cells [(row, column)] of the rows of a mask, the first row
    having index [j], in row-major order. *)
Fixpoint where_from (j : nat) (mask : list (list bool)) : list (nat * nat) :=
  match mask with
  | [] => []
  | row :: rest => ((fun i => (j, i)) <$> true_columns row) ++ where_from (S j) rest
  end.

(** [np.where(mask)] for a two-dimensional boolean array: the row indices
    and the column indices of the true cells, in row-major order. *)
Definition np_where (mask : list (list bool)) : list nat * list nat :=
  let cells := where_from 0 mask in (cells.*1, cells.*2).

(** [arr2D[mask]]: the values of [arr2D] at the true cells of a mask of
    its shape, in row-major order. *)
Definition bool_index (arr2D : list (list float)) (mask : list (list bool)) : list float :=
  concat (zip_with (fun (row : list float) mrow => omap (fun i => row !! i) (true_columns mrow))
                   arr2D mask).

(** [arr2D == 0] *)
Definition background (arr2D : list (list float)) : list (list bool) :=
  (fun row : list float => (fun x : float => SFeqb x (float_of_int 0)) <$> row) <$> arr2D.

(** The boolean mask [detected_peaks = local_max ^ eroded_background]. *)
Definition detected_peaks (S : scipy) (arr2D : list (list float)) : list (list bool) :=
  let local_max := elementwise SFeqb (maximum_filter S arr2D) arr2D in
  let eroded_background := binary_erosion S (background arr2D) in
  elementwise xorb local_max eroded_background.

Definition get_2D_peaks (S : scipy) (arr2D : list (list float)) (amp_min : float)
    : list peak :=
  let detected_peaks := detected_peaks S arr2D in
  let amps := bool_index arr2D detected_peaks in
  let '(j, i) := np_where detected_peaks in
  let peaks := zip (zip i j) amps in
  let peaks_filtered :=
    filter (fun x : nat * nat * float => SFltb amp_min x.2 = true) peaks in
  let frequency_idx := (fun x : nat * nat * float => x.1.2) <$> peaks_filtered in
  let time_idx := (fun x : nat * nat * float => x.1.1) <$> peaks_filtered in
  zip (Z.of_nat <$> frequency_idx) (Z.of_nat <$> time_idx).

(** Two arrays have one shape. *)
Definition same_shape {A B} (a : list (list A)) (b : list (list B)) : Prop :=
  Forall2 (fun r s => length r = length s) a b.

(** Python's [p < q] on tuples. *)
Definition peak_lt (p q : peak) : Prop := p.1 < q.1 ∨ (p.1 = q.1 ∧ p.2 < q.2).

(** Row-major order on the cells [(row, column)] of an array. *)
Definition cell_lt (c d : nat * nat) : Prop :=
  (c.1 < d.1)%nat ∨ (c.1 = d.1 ∧ (c.2 < d.2)%nat).

(** The filters that leave an array as it is. *)
Definition identity_filters : scipy :=
  {| maximum_filter := fun a => a; binary_erosion := fun b => b |}.

(** ** [decoder.py]: [find_files] *)

(** What [find_files] gets from [os] and [fnmatch]: the triples
    [(dirpath, dirnames, files)] of [os.walk(path)], [fnmatch.filter(names,
    pattern)] and [os.path.join(dirpath, f)]. *)
Record file_system := {
  os_walk : string → list (string * list string * list string);
  fnmatch_filter : list string → string → list string;
  os_path_join : string → string → string
}.

(** [e.replace('.', '')]: the string without its dots *)
Fixpoint remove_dots (e : string) : string :=
  match e with
  | EmptyString => EmptyString
  | String c e' =>
      if Ascii.eqb c "." then remove_dots e' else String c (remove_dots e')
  end.

Definition find_files (F : file_system) (path : string) (extensions : list string)
    : list (string * string) :=
  let extensions := remove_dots <$> extensions in
  walked ← os_walk F path;
  let '(dirpath, dirnames, files) := walked in
  extension ← extensions;
  f ← fnmatch_filter F files ("*." +:+ extension);
  let p := os_path_join F dirpath f in
  [(p, extension)].

(** * Properties *)

(** ** SHA-1 test vectors (FIPS 180, and one two-block message) *)

Example sha1_abc : sha1_hex "abc" = "a9993e364706816aba3e25717850c26c9cd0d89d"%string.
Proof. vm_compute. reflexivity. Qed.

Example sha1_empty : sha1_hex "" = "da39a3ee5e6b4b0d3255bfef95601890afd80709"%string.
Proof. vm_compute. reflexivity. Qed.

Example sha1_two_blocks :
  sha1_hex "aaaaaaaaaaaaaaaaaaaaaaaaaaaaaaaaaaaaaaaaaaaaaaaaaaaaaaaaaaaaaaaaaaaaaa"
  = "ed6c69d9e8b4373af86303dfaa3528dfbc129902"%string.
Proof. vm_compute. reflexivity. Qed.

(** ** The digest is forty lowercase hex characters *)

Lemma hex_digit_lower x : is_lower_hex (SHA1.hex_digit x) = true.
Proof.
  unfold SHA1.hex_digit.
  assert (H : 0 ≤ Z.land x 15 < 16).
  { change 15 with (Z.ones 4). rewrite Z.land_ones by lia. apply Z.mod_pos_bound. lia. }
  assert (Hn : (Z.to_nat (Z.land x 15) < 16)%nat) by lia.
  revert Hn. generalize (Z.to_nat (Z.land x 15)). intros n Hn.
  do 16 (destruct n as [|n]; [reflexivity|]). lia.
Qed.

Lemma hex_word_spec w :
  length (SHA1.hex_word w) = 8%nat ∧ Forall (fun c => is_lower_hex c = true) (SHA1.hex_word w).
Proof.
  split; [reflexivity|]. unfold SHA1.hex_word. cbn [fmap list_fmap].
  repeat constructor; apply hex_digit_lower.
Qed.

Lemma hex_state_spec s :
  length (SHA1.hex_state s) = 40%nat ∧ Forall (fun c => is_lower_hex c = true) (SHA1.hex_state s).
Proof.
  unfold SHA1.hex_state. split.
  - rewrite !length_app. by rewrite !(proj1 (hex_word_spec _)).
  - rewrite !Forall_app. repeat split; apply hex_word_spec.
Qed.

Lemma substring_of_list n (l : list ascii) :
  substring 0 n (string_of_list_ascii l) = string_of_list_ascii (take n l).
Proof.
  revert l. induction n as [|n IH]; intros [|c l]; simpl; try reflexivity.
  by rewrite IH.
Qed.

Lemma length_string_of_list (l : list ascii) :
  String.length (string_of_list_ascii l) = length l.
Proof. induction l; simpl; congruence. Qed.

Lemma hash_prefix_spec (s : string) :
  String.length (substring 0 20 (sha1_hex s)) = 20%nat
  ∧ Forall (fun c => is_lower_hex c = true)
           (list_ascii_of_string (substring 0 20 (sha1_hex s))).
Proof.
  unfold sha1_hex, SHA1.hexdigest. rewrite substring_of_list.
  destruct (hex_state_spec (SHA1.digest (encode_utf8 s))) as [Hlen Hhex].
  split.
  - rewrite length_string_of_list, length_take. lia.
  - rewrite list_ascii_of_string_of_list_ascii. by apply Forall_take.
Qed.

(** ** Sorting peaks *)

Global Instance peak_le_total : Total peak_le.
Proof. intros [f1 t1] [f2 t2]. unfold peak_le. simpl. lia. Qed.

Global Instance peak_le_trans : Transitive peak_le.
Proof. intros [f1 t1] [f2 t2] [f3 t3]. unfold peak_le. simpl. lia. Qed.

Global Instance peak_le_antisymm : AntiSymm (=) peak_le.
Proof.
  intros [f1 t1] [f2 t2]. unfold peak_le. simpl. intros H1 H2.
  f_equal; lia.
Qed.

Lemma sort_sorted peaks : StronglySorted peak_le (sort peaks).
Proof. apply StronglySorted_merge_sort; apply _. Qed.

Lemma sort_perm peaks : sort peaks ≡ₚ peaks.
Proof. apply merge_sort_Permutation. Qed.

(** Any sorted rearrangement of the peaks is the list [sort] returns, so the
    sorting algorithm does not matter. *)
Lemma sort_unique peaks l :
  StronglySorted peak_le l → l ≡ₚ peaks → l = sort peaks.
Proof.
  intros Hs Hp. apply (StronglySorted_unique peak_le); auto using sort_sorted.
  by rewrite Hp, sort_perm.
Qed.

Lemma sort_Permutation peaks1 peaks2 :
  peaks1 ≡ₚ peaks2 → sort peaks1 = sort peaks2.
Proof.
  intros Hp. apply sort_unique; [apply sort_sorted|].
  by rewrite sort_perm.
Qed.

(** ** The double loop of [generate_hashes] *)

Lemma generate_hashes_loop peaks fan_value :
  generate_hashes peaks fan_value
  = seq 0 (length (sort peaks)) ≫= fun i =>
      fan_range fan_value ≫= fun j => loop_body (sort peaks) i j.
Proof.
  unfold generate_hashes. cbv zeta.
  apply list_bind_ext; [|done]. intros i.
  apply list_bind_ext; [|done]. intros j.
  unfold loop_body. destruct (i + j <? length (sort peaks))%nat; [|done].
  destruct (sort peaks !! i) as [[freq1 t1]|]; [|done].
  destruct (sort peaks !! (i + j)%nat) as [[freq2 t2]|]; [|done].
  unfold emit, delta_in_bounds, t_delta, record_of, descriptor, t_delta. simpl.
  destruct (MIN_HASH_TIME_DELTA <=? t2 - t1) eqn:H1;
    destruct (t2 - t1 <=? MAX_HASH_TIME_DELTA) eqn:H2; simpl;
    case_decide as H; try done; exfalso; lia.
Qed.

Lemma bind_nil_const {A B} (l : list A) : l ≫= (fun _ => @nil B) = [].
Proof. induction l; [done|]. by rewrite bind_cons. Qed.

Lemma bind_seq_lookup {A B} (f : A → list B) (l : list A) n :
  seq 0 n ≫= (fun j => match l !! j with Some b => f b | None => [] end)
  = take n l ≫= f.
Proof.
  revert l. induction n as [|n IH]; intros l; [done|].
  rewrite <- cons_seq, <- fmap_S_seq, bind_cons, list_fmap_bind.
  destruct l as [|b l]; simpl.
  - apply bind_nil_const.
  - f_equal. apply IH.
Qed.

Lemma loop_body_cons_S a peaks i j :
  loop_body (a :: peaks) (S i) j = loop_body peaks i j.
Proof. reflexivity. Qed.

Lemma loop_body_cons_0 a peaks j :
  loop_body (a :: peaks) 0 (S j)
  = match peaks !! j with Some b => emit a b | None => [] end.
Proof.
  unfold loop_body.
  replace (0 + S j <? length (a :: peaks))%nat with (j <? length peaks)%nat
    by (simpl; apply eq_iff_eq_true; rewrite !Nat.ltb_lt; lia).
  simpl. destruct (peaks !! j) eqn:Hj.
  - apply lookup_lt_Some in Hj. apply Nat.ltb_lt in Hj. by rewrite Hj.
  - by destruct (j <? length peaks)%nat.
Qed.

Lemma hashes_loop_cons a peaks zone :
  (seq 0 (length (a :: peaks)) ≫= fun i => seq 1 zone ≫= fun j => loop_body (a :: peaks) i j)
  = (take zone peaks ≫= emit a)
    ++ (seq 0 (length peaks) ≫= fun i => seq 1 zone ≫= fun j => loop_body peaks i j).
Proof.
  simpl length. rewrite <- cons_seq, bind_cons. f_equal.
  - rewrite <- fmap_S_seq, list_fmap_bind. rewrite <- bind_seq_lookup.
    apply list_bind_ext; [|done]. intros j. simpl. apply loop_body_cons_0.
  - rewrite <- (fmap_S_seq 0 (length peaks)), list_fmap_bind. done.
Qed.

Lemma emit_pairs a (targets : list peak) :
  targets ≫= emit a = record_of <$> filter delta_in_bounds (pair a <$> targets).
Proof.
  induction targets as [|b l IH]; [done|].
  rewrite bind_cons, IH, fmap_cons, filter_cons. unfold emit.
  by case_decide.
Qed.

Lemma hashes_loop_pairs peaks zone :
  (seq 0 (length peaks) ≫= fun i => seq 1 zone ≫= fun j => loop_body peaks i j)
  = record_of <$> filter delta_in_bounds (target_zone_pairs zone peaks).
Proof.
  induction peaks as [|a peaks IH]; [done|].
  rewrite hashes_loop_cons, IH. simpl target_zone_pairs.
  by rewrite filter_app, fmap_app, emit_pairs.
Qed.

Lemma generate_hashes_pairs peaks fan_value :
  generate_hashes peaks fan_value
  = record_of <$> filter delta_in_bounds
      (target_zone_pairs (Z.to_nat fan_value - 1) (sort peaks)).
Proof. rewrite generate_hashes_loop. apply hashes_loop_pairs. Qed.

(** The pairs of the target zones are the pairs of sorted positions [i] and
    [i + j] with [1 <= j <= zone]. *)
Lemma elem_of_target_zone_pairs zone (sorted : list peak) anchor target :
  (anchor, target) ∈ target_zone_pairs zone sorted
  ↔ ∃ i j : nat, (1 ≤ j ≤ zone)%nat
      ∧ sorted !! i = Some anchor ∧ sorted !! (i + j)%nat = Some target.
Proof.
  induction sorted as [|a rest IH]; simpl.
  - split; [by intros ?%elem_of_nil|]. by intros (i & j & _ & ? & _).
  - rewrite elem_of_app, list_elem_of_fmap, IH. split.
    + intros [(b & [= -> ->] & Hb) | (i & j & Hj & Hi & Hij)].
      * apply list_elem_of_lookup in Hb as [k Hk].
        apply lookup_take_Some in Hk as [Hk Hlt].
        exists 0%nat, (S k). split; [lia|]. done.
      * exists (S i), j. done.
    + intros (i & j & Hj & Hi & Hij). destruct i as [|i].
      * left. simpl in Hi. injection Hi as ->. exists target. split; [done|].
        destruct j as [|j]; [lia|]. simpl in Hij.
        apply list_elem_of_lookup. exists j. apply lookup_take_Some. split; [done|lia].
      * right. exists i, j. done.
Qed.

Example str_examples : (str 100, str 0, str (-5)) = ("100", "0", "-5")%string.
Proof. reflexivity. Qed.

(** [str n] is the decimal numeral of [n]: it reads back as [n]. *)
Lemma str_parse n : option_map Z.of_int (NilZero.int_of_string (str n)) = Some n.
Proof.
  unfold str. rewrite NilZero.isi.
  - simpl. f_equal. apply DecimalZ.of_to.
  - destruct n; simpl; try done. intros [= H]. by apply Unsigned.to_uint_nonnil in H.
  - destruct n; simpl; try done. intros [= H]. by apply Unsigned.to_uint_nonnil in H.
Qed.

Lemma generate_hashes_nil fan_value : generate_hashes [] fan_value = [].
Proof. reflexivity. Qed.

Lemma generate_hashes_singleton p fan_value : generate_hashes [p] fan_value = [].
Proof.
  rewrite generate_hashes_pairs.
  assert (Hs : sort [p] = [p]).
  { apply Permutation_singleton_r, sort_perm. }
  rewrite Hs. simpl. by rewrite take_nil.
Qed.

Lemma elem_of_fan_range fan_value j :
  j ∈ fan_range fan_value ↔ (1 ≤ j)%nat ∧ Z.of_nat j < fan_value.
Proof. unfold fan_range. rewrite elem_of_seq. lia. Qed.

(** C1: every record [generate_hashes] yields is [(h, t1)] for an anchor and a
    later target of the sorted peak list, where [h] is the first 20 characters
    of the SHA-1 hex digest of ["freq1|freq2|dt"] (all of them lowercase hex),
    the three numbers written as decimal numerals, and [t1] is the anchor's
    time bin.  The peaks (100, 10) and (200, 15) with
    fan value 15 give exactly one record, with the hash of ["100|200|5"] and
    anchor time 10. *)
Theorem generate_hashes_records :
  (∀ (peaks : list peak) (fan_value : Z),
     Forall (fun r : hash_record =>
       ∃ (anchor target : peak) (i j : nat),
         (1 ≤ j)%nat ∧ Z.of_nat j < fan_value
         ∧ sort peaks !! i = Some anchor
         ∧ sort peaks !! (i + j)%nat = Some target
         ∧ r = (substring 0 20
                  (sha1_hex (str anchor.1 +:+ "|" +:+ str target.1 +:+ "|"
                               +:+ str (target.2 - anchor.2))),
                anchor.2)
         ∧ String.length r.1 = 20%nat
         ∧ Forall (fun c => is_lower_hex c = true) (list_ascii_of_string r.1))
       (generate_hashes peaks fan_value))
  ∧ (∀ n : Z, option_map Z.of_int (NilZero.int_of_string (str n)) = Some n)
  ∧ generate_hashes [(100, 10); (200, 15)] 15
    = [(substring 0 20 (sha1_hex "100|200|5"), 10)]
  ∧ substring 0 20 (sha1_hex "100|200|5") = "19e03660d91f6336781e"%string.
Proof.
  split; [|split; [exact str_parse|split; vm_compute; reflexivity]].
  intros peaks fan_value. rewrite generate_hashes_pairs.
  apply Forall_forall. intros r Hr.
  apply list_elem_of_fmap in Hr as ([anchor target] & -> & Hpair).
  apply list_elem_of_filter in Hpair as [_ Hpair].
  apply elem_of_target_zone_pairs in Hpair as (i & j & Hj & Hi & Hij).
  exists anchor, target, i, j.
  repeat split; try done; try lia; apply hash_prefix_spec.
Qed.

(** C2: the records are, in order, those of the (anchor, target) pairs of the
    target zones (target among the next [fan_value - 1] sorted peaks) whose
    time delta lies in [0, 200], one record per such pair and none for the
    others.  For the peaks (10, 0), (10, 5), (10, 250) only the pair with delta
    5 yields a record; the pairs with deltas 250 and 245 are dropped. *)
Theorem generate_hashes_delta_bounds :
  (∀ (peaks : list peak) (fan_value : Z),
     generate_hashes peaks fan_value
     = record_of <$> filter delta_in_bounds
         (target_zone_pairs (Z.to_nat fan_value - 1) (sort peaks)))
  ∧ (∀ (zone : nat) (sorted : list peak) (anchor target : peak),
       (anchor, target) ∈ target_zone_pairs zone sorted
       ↔ ∃ i j : nat, (1 ≤ j ≤ zone)%nat
           ∧ sorted !! i = Some anchor ∧ sorted !! (i + j)%nat = Some target)
  ∧ (∀ anchor target : peak,
       delta_in_bounds (anchor, target) ↔ 0 ≤ target.2 - anchor.2 ≤ 200)
  ∧ target_zone_pairs 14 (sort [(10, 0); (10, 5); (10, 250)])
    = [((10, 0), (10, 5)); ((10, 0), (10, 250)); ((10, 5), (10, 250))]
  ∧ generate_hashes [(10, 0); (10, 5); (10, 250)] 15 = [record_of ((10, 0), (10, 5))]
  ∧ t_delta ((10, 0), (10, 5)) = 5
  ∧ t_delta ((10, 0), (10, 250)) = 250 ∧ ¬ delta_in_bounds ((10, 0), (10, 250))
  ∧ t_delta ((10, 5), (10, 250)) = 245 ∧ ¬ delta_in_bounds ((10, 5), (10, 250)).
Proof.
  split; [exact generate_hashes_pairs|].
  split; [exact elem_of_target_zone_pairs|].
  split; [done|].
  split; [vm_compute; reflexivity|].
  split; [vm_compute; reflexivity|].
  unfold delta_in_bounds, t_delta, MIN_HASH_TIME_DELTA, MAX_HASH_TIME_DELTA. simpl.
  repeat split; lia.
Qed.

(** C3: [generate_hashes] pairs the peaks of the list sorted ascending by
    (frequency bin, time bin): its records are, in order, those of each peak
    of the sorted list paired with the [fan_value - 1] peaks that follow it
    there.  So two peak lists that are permutations of each other yield the
    same sequence of records. *)
Theorem generate_hashes_permutation (peaks1 peaks2 : list peak) (fan_value : Z) :
  peaks1 ≡ₚ peaks2 →
  StronglySorted (fun p q : peak => p.1 < q.1 ∨ (p.1 = q.1 ∧ p.2 ≤ q.2)) (sort peaks1)
  ∧ sort peaks1 ≡ₚ peaks1
  ∧ sort peaks1 = sort peaks2
  ∧ generate_hashes peaks1 fan_value
    = record_of <$> filter delta_in_bounds
        (target_zone_pairs (Z.to_nat fan_value - 1) (sort peaks1))
  ∧ generate_hashes peaks1 fan_value = generate_hashes (sort peaks1) fan_value
  ∧ generate_hashes peaks1 fan_value = generate_hashes peaks2 fan_value.
Proof.
  intros Hp. split; [apply sort_sorted|]. split; [apply sort_perm|].
  split; [by apply sort_Permutation|].
  split; [apply generate_hashes_pairs|].
  split.
  - rewrite !generate_hashes_pairs. by rewrite (sort_Permutation (sort peaks1) peaks1 (sort_perm peaks1)).
  - by rewrite !generate_hashes_pairs, (sort_Permutation peaks1 peaks2).
Qed.

(** Three peaks whose order by time is not their order by frequency: the
    records are those of the list sorted by frequency first. *)
Lemma generate_hashes_permutation_witness :
  [(300, 12); (100, 10); (200, 3)] ≡ₚ [(200, 3); (300, 12); (100, 10)]
  ∧ sort [(300, 12); (100, 10); (200, 3)] = [(100, 10); (200, 3); (300, 12)]
  ∧ generate_hashes [(300, 12); (100, 10); (200, 3)] 15
    = [record_of ((100, 10), (300, 12)); record_of ((200, 3), (300, 12))]
  ∧ generate_hashes [(300, 12); (100, 10); (200, 3)] 15
    = generate_hashes [(200, 3); (300, 12); (100, 10)] 15.
Proof.
  assert (Hp : [(300, 12); (100, 10); (200, 3)] ≡ₚ [(200, 3); (300, 12); (100, 10)]).
  { etrans; [apply (Permutation_cons_append [(100, 10); (200, 3)] (300, 12))|].
    apply (Permutation_cons_append [(200, 3); (300, 12)] (100, 10)). }
  destruct (generate_hashes_permutation _ _ 15 Hp) as (_ & _ & _ & Hpairs & _ & Heq).
  split; [exact Hp|]. split; [reflexivity|].
  split; [|exact Heq].
  etrans; [exact Hpairs|]. vm_compute. reflexivity.
Defined.

(** C10: for a fan value of at most 1 the offsets [range(1, fan_value)] are
    empty and [generate_hashes] yields nothing.  The offsets are always at
    least 1, so a peak is never paired with itself, and a single peak yields
    no hash. *)
Theorem generate_hashes_small_fan (peaks : list peak) (fan_value : Z) :
  fan_value ≤ 1 →
  fan_range fan_value = [] ∧ generate_hashes peaks fan_value = []
  ∧ (∀ (fan_value' : Z) (j : nat),
       j ∈ fan_range fan_value' ↔ (1 ≤ j)%nat ∧ Z.of_nat j < fan_value')
  ∧ (∀ (p : peak) (fan_value' : Z), generate_hashes [p] fan_value' = []).
Proof.
  intros Hfan.
  assert (Hr : fan_range fan_value = []).
  { unfold fan_range. by replace (Z.to_nat fan_value - 1)%nat with 0%nat by lia. }
  split; [done|]. split.
  - rewrite generate_hashes_loop, Hr. apply bind_nil_const.
  - split; [exact elem_of_fan_range|exact generate_hashes_singleton].
Qed.

Lemma generate_hashes_small_fan_witness :
  1 ≤ 1 ∧ fan_range 1 = [] ∧ generate_hashes [(100, 10); (200, 15)] 1 = [].
Proof.
  split; [lia|].
  destruct (generate_hashes_small_fan [(100, 10); (200, 15)] 1) as (H1 & H2 & _); [lia|].
  by split.
Defined.

(** ** The tally and the running best of [align_matches] *)

Lemma align_loop_snoc matches tup :
  align_loop (matches ++ [tup]) = align_step (align_loop matches) tup.
Proof. unfold align_loop. by rewrite foldl_app. Qed.

Lemma align_step_counter st sid diff :
  diff_counter (align_step st (sid, diff))
  = <[diff := <[sid := counter_get (diff_counter st) diff sid + 1]>
                (default ∅ (diff_counter st !! diff))]> (diff_counter st).
Proof.
  unfold align_step, counter_get.
  set (dc := diff_counter st).
  assert (Hdc : ∀ d l c s m, diff_counter
            (if largest_count st <? c then AlignState m d c s
             else AlignState m l (largest_count st) (song_id st)) = m)
    by (intros; by destruct (_ <? _)).
  rewrite Hdc. clear Hdc.
  destruct (dc !! diff) as [row|] eqn:Hrow; simpl.
  - rewrite (lookup_total_correct _ _ _ Hrow).
    destruct (row !! sid) as [c|] eqn:Hc; simpl.
    + by rewrite (lookup_total_correct _ _ _ Hc).
    + by rewrite lookup_total_insert_eq, !insert_insert_eq.
  - rewrite lookup_total_insert_eq, lookup_empty.
    by rewrite lookup_total_insert_eq, !insert_insert_eq.
Qed.

Lemma align_step_best st sid diff :
  best (align_step st (sid, diff))
  = let count := counter_get (diff_counter st) diff sid + 1 in
    if largest_count st <? count then (diff, count, sid) else best st.
Proof.
  unfold align_step, counter_get, best. cbv zeta.
  set (dc := diff_counter st).
  destruct (dc !! diff) as [row|] eqn:Hrow; simpl.
  - rewrite (lookup_total_correct _ _ _ Hrow).
    destruct (row !! sid) as [c|] eqn:Hc; simpl.
    + rewrite (lookup_total_correct _ _ _ Hc). by destruct (_ <? _).
    + rewrite lookup_total_insert_eq. by destruct (_ <? _).
  - rewrite lookup_total_insert_eq, lookup_empty, lookup_total_insert_eq.
    by destruct (_ <? _).
Qed.

Lemma counter_get_step st sid diff sid' diff' :
  counter_get (diff_counter (align_step st (sid, diff))) diff' sid'
  = counter_get (diff_counter st) diff' sid'
    + (if decide ((sid', diff') = (sid, diff)) then 1 else 0).
Proof.
  rewrite align_step_counter. unfold counter_get at 1.
  destruct (decide (diff' = diff)) as [->|Hd].
  - rewrite lookup_insert_eq. simpl.
    destruct (decide (sid' = sid)) as [->|Hs].
    + rewrite lookup_insert_eq. simpl. rewrite decide_True by done. done.
    + rewrite lookup_insert_ne by done.
      rewrite decide_False by congruence.
      unfold counter_get. destruct (diff_counter st !! diff); simpl; [lia|].
      rewrite lookup_empty. simpl. lia.
  - rewrite lookup_insert_ne by done. rewrite decide_False by congruence.
    unfold counter_get. lia.
Qed.

Lemma tally_nil sid diff : tally [] sid diff = 0.
Proof. reflexivity. Qed.

Lemma tally_snoc matches tup sid diff :
  tally (matches ++ [tup]) sid diff
  = tally matches sid diff + (if decide ((sid, diff) = tup) then 1 else 0).
Proof.
  unfold tally. rewrite filter_app, length_app, filter_cons, filter_nil.
  destruct (decide (tup = (sid, diff))) as [->|Hne].
  - rewrite decide_True by done. simpl. lia.
  - rewrite decide_False by congruence. simpl. lia.
Qed.

Lemma tally_nonneg matches sid diff : 0 ≤ tally matches sid diff.
Proof. unfold tally. lia. Qed.

Lemma tally_app matches1 matches2 sid diff :
  tally (matches1 ++ matches2) sid diff
  = tally matches1 sid diff + tally matches2 sid diff.
Proof. unfold tally. rewrite filter_app, length_app. lia. Qed.

Lemma tally_take_le n matches sid diff :
  tally (take n matches) sid diff ≤ tally matches sid diff.
Proof.
  pose proof (tally_app (take n matches) (drop n matches) sid diff) as H.
  rewrite take_drop in H. pose proof (tally_nonneg (drop n matches) sid diff). lia.
Qed.

(** The dictionary of dictionaries holds the number of occurrences. *)
Lemma counter_get_tally matches sid diff :
  counter_get (diff_counter (align_loop matches)) diff sid = tally matches sid diff.
Proof.
  induction matches as [|[sid0 diff0] matches IH] using rev_ind; [done|].
  rewrite align_loop_snoc, counter_get_step, tally_snoc, IH. done.
Qed.

(** After a pair arrives, it becomes the best when its count exceeds the best
    count so far, and the best is unchanged otherwise. *)
Lemma align_loop_best_snoc matches sid diff :
  best (align_loop (matches ++ [(sid, diff)]))
  = let count := tally (matches ++ [(sid, diff)]) sid diff in
    if largest_count (align_loop matches) <? count then (diff, count, sid)
    else best (align_loop matches).
Proof.
  rewrite align_loop_snoc, align_step_best, counter_get_tally, tally_snoc.
  by rewrite decide_True.
Qed.

Lemma align_loop_invariant matches :
  let st := align_loop matches in
  (∀ sid diff, tally matches sid diff ≤ largest_count st)
  ∧ (matches = [] → best st = (0, 0, -1))
  ∧ (matches ≠ [] →
     ∃ k : nat,
       matches !! k = Some (song_id st, largest st)
       ∧ tally (take (S k) matches) (song_id st) (largest st) = largest_count st
       ∧ ∀ sid diff, tally (take k matches) sid diff < largest_count st).
Proof.
  induction matches as [|[sid0 diff0] matches IH] using rev_ind.
  { cbv zeta. split; [intros; rewrite tally_nil; simpl; lia|]. split; done. }
  cbv zeta in *. destruct IH as (Hmax & Hnil & Hfirst).
  pose proof (align_loop_best_snoc matches sid0 diff0) as Hbest.
  cbv zeta in Hbest. rewrite tally_snoc, decide_True in Hbest by done.
  assert (Hsnoc : ∀ sid diff, tally (matches ++ [(sid0, diff0)]) sid diff
            = tally matches sid diff
              + (if decide ((sid, diff) = (sid0, diff0)) then 1 else 0))
    by (intros; apply tally_snoc).
  pose proof (Hmax sid0 diff0) as Hmax0.
  pose proof (tally_nonneg matches sid0 diff0) as Hpos0.
  unfold best in Hbest.
  destruct (largest_count (align_loop matches) <? tally matches sid0 diff0 + 1) eqn:Hlt.
  - apply Z.ltb_lt in Hlt. injection Hbest as Hl Hc Hs.
    rewrite Hl, Hc, Hs.
    split; [|split; [by intros ?%app_nil_r_inv|]].
    + intros sid diff. rewrite Hsnoc. specialize (Hmax sid diff).
      case_decide; lia.
    + intros _. exists (length matches).
      split; [by rewrite list_lookup_middle|].
      split.
      * rewrite take_ge by (rewrite length_app; simpl; lia).
        rewrite Hsnoc, decide_True by done. done.
      * intros sid diff. rewrite take_app_length. specialize (Hmax sid diff). lia.
  - apply Z.ltb_ge in Hlt. injection Hbest as Hl Hc Hs.
    rewrite Hl, Hc, Hs.
    assert (Hne : matches ≠ []).
    { intros ->. rewrite tally_nil in Hlt. simpl in Hlt. lia. }
    split; [|split; [by intros ?%app_nil_r_inv|]].
    + intros sid diff. rewrite Hsnoc. specialize (Hmax sid diff).
      case_decide as Heq; [|lia]. injection Heq as -> ->. lia.
    + intros _. destruct (Hfirst Hne) as (k & Hk & Htk & Hbefore).
      pose proof (lookup_lt_Some _ _ _ Hk) as Hklt.
      exists k. split; [by rewrite lookup_app_l|].
      rewrite !take_app_le by lia. done.
Qed.

Example align_loop_tie :
  best (align_loop [(1, 7); (2, 7); (2, 7); (1, 7)]) = (7, 2, 2).
Proof. vm_compute. reflexivity. Qed.

Example align_loop_tie_first :
  best (align_loop [(1, 7); (2, 9)]) = (7, 1, 1).
Proof. vm_compute. reflexivity. Qed.

(** C4: the winner of [align_matches] is the running argmax of the tally under
    a strict comparison made after each increment.  The dictionary holds the
    number of occurrences of each pair; a pair becomes the best exactly when
    its tally exceeds the best count so far; so the final count is the largest
    tally, and the winner is the pair whose tally reached that value first,
    before any other tally did. *)
Theorem align_matches_running_argmax :
  (∀ matches sid diff,
     counter_get (diff_counter (align_loop matches)) diff sid = tally matches sid diff)
  ∧ (∀ matches sid diff,
       best (align_loop (matches ++ [(sid, diff)]))
       = if largest_count (align_loop matches) <? tally (matches ++ [(sid, diff)]) sid diff
         then (diff, tally (matches ++ [(sid, diff)]) sid diff, sid)
         else best (align_loop matches))
  ∧ (∀ matches sid diff,
       tally matches sid diff ≤ largest_count (align_loop matches))
  ∧ best (align_loop []) = (0, 0, -1)
  ∧ (∀ matches, matches ≠ [] →
       ∃ k : nat,
         matches !! k = Some (song_id (align_loop matches), largest (align_loop matches))
         ∧ tally (take (S k) matches)
                 (song_id (align_loop matches)) (largest (align_loop matches))
           = largest_count (align_loop matches)
         ∧ tally matches (song_id (align_loop matches)) (largest (align_loop matches))
           = largest_count (align_loop matches)
         ∧ ∀ sid diff, tally (take k matches) sid diff < largest_count (align_loop matches)).
Proof.
  split; [exact counter_get_tally|].
  split; [exact align_loop_best_snoc|].
  split; [intros matches; apply (align_loop_invariant matches)|].
  split; [reflexivity|].
  intros matches Hne.
  destruct (align_loop_invariant matches) as (Hmax & _ & Hfirst).
  destruct (Hfirst Hne) as (k & Hk & Htk & Hbefore).
  exists k. repeat split; try done.
  apply Z.le_antisymm; [apply Hmax|].
  rewrite <- Htk. apply tally_take_le.
Qed.

(** ** When [align_matches] returns [None] *)

Lemma align_matches_None get_song_by_id matches :
  align_matches get_song_by_id matches = Ok None
  ↔ get_song_by_id (song_id (align_loop matches)) = None.
Proof.
  unfold align_matches. cbv zeta.
  destruct (get_song_by_id (song_id (align_loop matches))); [|done].
  destruct (nseconds (largest (align_loop matches))); split; done.
Qed.

Lemma align_loop_winner_in matches :
  matches ≠ [] →
  (song_id (align_loop matches), largest (align_loop matches)) ∈ matches.
Proof.
  intros Hne. destruct (align_loop_invariant matches) as (_ & _ & Hfirst).
  destruct (Hfirst Hne) as (k & Hk & _). by apply list_elem_of_lookup_2 in Hk.
Qed.

(** ** The worker's hash set *)

Lemma foldl_union_channels (f : list Z → gset hash_record) (acc : gset hash_record)
    (channels : list (list Z)) :
  foldl (fun result channel => result ∪ f channel) acc channels
  = acc ∪ ⋃ (f <$> channels).
Proof.
  revert acc. induction channels as [|ch channels IH]; intros acc; simpl.
  - by rewrite (right_id_L ∅ (∪)).
  - by rewrite IH, (assoc_L (∪)).
Qed.

Lemma elem_of_union_channels (f : list Z → list hash_record) channels r :
  r ∈ ⋃ ((fun ch => list_to_set (C := gset hash_record) (f ch)) <$> channels)
  ↔ ∃ ch, ch ∈ channels ∧ r ∈ f ch.
Proof.
  rewrite elem_of_union_list. split.
  - intros (X & HX & Hr). apply list_elem_of_fmap in HX as (ch & -> & Hch).
    exists ch. split; [done|]. by apply elem_of_list_to_set in Hr.
  - intros (ch & Hch & Hr). exists (list_to_set (f ch)). split.
    + apply list_elem_of_fmap. by exists ch.
    + by apply elem_of_list_to_set.
Qed.

Lemma union_channels_perm (f : list Z → list hash_record) channels1 channels2 :
  channels1 ≡ₚ channels2 →
  ⋃ ((fun ch => list_to_set (C := gset hash_record) (f ch)) <$> channels1)
  = ⋃ ((fun ch => list_to_set (C := gset hash_record) (f ch)) <$> channels2).
Proof.
  intros Hp. apply set_eq. intros r. rewrite !elem_of_union_channels.
  by setoid_rewrite Hp.
Qed.

Lemma unpack_spec :
  (∀ filename limit' limit, unpack (Pair filename limit') limit = (filename, IntLimit limit'))
  ∧ (∀ filename limit, String.length filename ≠ 2%nat →
       unpack (Path filename) limit = (filename, IntLimit limit))
  ∧ (∀ c1 c2 limit,
       unpack (Path (String c1 (String c2 EmptyString))) limit
       = (String c1 EmptyString, StrLimit (String c2 EmptyString))).
Proof.
  split; [done|]. split; [|done].
  intros [|c1 [|c2 [|c3 s]]] limit Hlen; done.
Qed.

Lemma fingerprint_worker_ok B local_maxima filename limit song_name channels Fs file_hash :
  read_any B (unpack filename limit).1 (unpack filename limit).2
  = Ok (channels, Fs, file_hash) →
  _fingerprint_worker B local_maxima filename limit song_name
  = Ok (or_songname song_name (path_to_songname B (unpack filename limit).1),
        ⋃ ((fun ch => list_to_set (fingerprint local_maxima ch Fs)) <$> channels),
        file_hash).
Proof.
  intros Hread. unfold _fingerprint_worker.
  destruct (unpack filename limit) as [filename' limit']. simpl in Hread.
  cbv zeta. cbn [fst]. rewrite Hread.
  rewrite (foldl_union_channels (fun ch => list_to_set (fingerprint local_maxima ch Fs))).
  by rewrite (left_id_L ∅ (∪)).
Qed.

(** C8: the worker unpacks its argument and reads the file; when the file
    is read, the hash collection the worker returns is the union of the
    per-channel sets of records: a record is in it exactly when some channel
    yields it, it holds each record once, and it is the same for any order
    of the channels. *)
Theorem fingerprint_worker_union (B : backends) (local_maxima : list Z → Z → list peak)
    (filename : worker_arg) (limit : option Z) (song_name : option string)
    (channels : list (list Z)) (Fs : Z) (file_hash : string) :
  read_any B (unpack filename limit).1 (unpack filename limit).2
  = Ok (channels, Fs, file_hash) →
  ∃ (name : string) (hashes : gset hash_record),
    _fingerprint_worker B local_maxima filename limit song_name
    = Ok (name, hashes, file_hash)
    ∧ hashes = ⋃ ((fun ch => list_to_set (fingerprint local_maxima ch Fs)) <$> channels)
    ∧ (∀ r, r ∈ hashes ↔ ∃ ch, ch ∈ channels ∧ r ∈ fingerprint local_maxima ch Fs)
    ∧ NoDup (elements hashes)
    ∧ (∀ (B' : backends) (channels' : list (list Z)),
         read_any B' (unpack filename limit).1 (unpack filename limit).2
         = Ok (channels', Fs, file_hash) →
         channels' ≡ₚ channels →
         ∃ name', _fingerprint_worker B' local_maxima filename limit song_name
                  = Ok (name', hashes, file_hash)).
Proof.
  intros Hread. eexists _, _.
  split; [by apply fingerprint_worker_ok|]. split; [done|].
  split; [apply (elem_of_union_channels (fun ch => fingerprint local_maxima ch Fs))|].
  split; [apply NoDup_elements|].
  intros B' channels' Hread' Hp. eexists.
  rewrite (fingerprint_worker_ok _ _ _ _ _ _ _ _ Hread').
  by rewrite (union_channels_perm (fun ch => fingerprint local_maxima ch Fs) _ _ Hp).
Qed.

Lemma fingerprint_worker_union_witness :
  ∃ (name : string) (hashes : gset hash_record),
    _fingerprint_worker stereo_backends (fun _ _ => [(100, 10); (200, 15)])
      (Path "song.mp3") None None
    = Ok (name, hashes, unique_hash stereo_backends "song.mp3")
    ∧ hashes = ⋃ ((fun ch => list_to_set
                     (fingerprint (fun _ _ => [(100, 10); (200, 15)]) ch 44100))
                  <$> [[1; 3]; [2; 4]])
    ∧ (∀ r, r ∈ hashes
         ↔ ∃ ch, ch ∈ [[1; 3]; [2; 4]]
                 ∧ r ∈ fingerprint (fun _ _ => [(100, 10); (200, 15)]) ch 44100)
    ∧ NoDup (elements hashes)
    ∧ (∀ (B' : backends) (channels' : list (list Z)),
         read B' "song.mp3" None
         = Ok (channels', 44100, unique_hash stereo_backends "song.mp3") →
         channels' ≡ₚ [[1; 3]; [2; 4]] →
         ∃ name', _fingerprint_worker B' (fun _ _ => [(100, 10); (200, 15)])
                    (Path "song.mp3") None None
                  = Ok (name', hashes, unique_hash stereo_backends "song.mp3")).
Proof.
  apply (fingerprint_worker_union stereo_backends (fun _ _ => [(100, 10); (200, 15)])
           (Path "song.mp3") None None [[1; 3]; [2; 4]] 44100
           (unique_hash stereo_backends "song.mp3")).
  reflexivity.
Defined.

Example fingerprint_worker_stereo :
  _fingerprint_worker stereo_backends (fun _ _ => [(100, 10); (200, 15)])
    (Path "song.mp3") None None
  = Ok ("song"%string, {[ ("19e03660d91f6336781e"%string, 10) ]},
        "DA39A3EE5E6B4B0D3255BFEF95601890AFD80709"%string).
Proof. vm_compute. reflexivity. Qed.

(** A path of two characters is unpacked like a tuple: the file named by the
    first character is read, with the second character as the limit. *)
Example fingerprint_worker_two_characters (B : backends) local_maxima limit song_name :
  _fingerprint_worker B local_maxima (Path "ab") limit song_name
  = _fingerprint_worker B local_maxima (Path "ab") None song_name
  ∧ (unpack (Path "ab") limit).1 = "a"%string
  ∧ read_any B "a" (unpack (Path "ab") limit).2 = read_str B "a" "b".
Proof. done. Qed.

(** ** The fingerprint limit in [read] *)

Lemma Dejavu_limit_full_track :
  Dejavu_limit None = None ∧ Dejavu_limit (Some (-1)) = None
  ∧ ∀ n, n ≠ -1 → Dejavu_limit (Some n) = Some n.
Proof.
  split; [done|]. split; [done|]. intros n Hn. unfold Dejavu_limit.
  rewrite decide_False; [done|]. congruence.
Qed.

(** On the pydub path no slice is taken without a limit, and a limit other
    than 0 takes pydub's slice up to [limit * 1000] milliseconds. *)
Lemma read_decoded B filename limit seg :
  from_file B filename = Decoded seg →
  read B filename limit
  = let seg' := match limit with
                | Some n => if n =? 0 then seg else seg_prefix B seg (n * 1000)
                | None => seg
                end in
    Ok (channels_of seg', seg_frame_rate seg', unique_hash B filename).
Proof.
  intros Hseg. unfold read. rewrite Hseg. cbv zeta.
  destruct limit as [n|]; [|done]. simpl. by destruct (n =? 0).
Qed.

(** The limit on the pydub path: a file that pydub decodes is read whole when
    [fingerprint_limit] is null or -1, and a positive [fingerprint_limit] keeps
    pydub's slice of the first [fingerprint_limit * 1000] milliseconds. *)
Theorem read_limit_pydub (B : backends) (filename : string) (seg : AudioSegment) (n : Z) :
  from_file B filename = Decoded seg →
  0 < n →
  read B filename (Dejavu_limit None)
  = Ok (channels_of seg, seg_frame_rate seg, unique_hash B filename)
  ∧ read B filename (Dejavu_limit (Some (-1)))
    = Ok (channels_of seg, seg_frame_rate seg, unique_hash B filename)
  ∧ read B filename (Dejavu_limit (Some n))
    = Ok (channels_of (seg_prefix B seg (n * 1000)),
          seg_frame_rate (seg_prefix B seg (n * 1000)), unique_hash B filename).
Proof.
  intros Hseg Hn.
  split; [by rewrite (read_decoded _ _ _ _ Hseg)|].
  split; [by rewrite (read_decoded _ _ _ _ Hseg)|].
  destruct Dejavu_limit_full_track as (_ & _ & Hlim).
  rewrite Hlim by lia. rewrite (read_decoded _ _ _ _ Hseg). cbv zeta.
  by replace (n =? 0) with false by (symmetry; apply Z.eqb_neq; lia).
Qed.

Lemma read_limit_pydub_witness :
  from_file stereo_backends "song.mp3"
  = Decoded {| seg_samples := [1; 2; 3; 4]; seg_channels := 2; seg_frame_rate := 44100 |}
  ∧ 0 < 30
  ∧ read stereo_backends "song.mp3" (Dejavu_limit None)
    = Ok ([[1; 3]; [2; 4]], 44100, unique_hash stereo_backends "song.mp3").
Proof.
  split; [reflexivity|]. split; [lia|].
  destruct (read_limit_pydub stereo_backends "song.mp3"
              {| seg_samples := [1; 2; 3; 4]; seg_channels := 2; seg_frame_rate := 44100 |}
              30 eq_refl) as (H & _); [lia|].
  exact H.
Defined.

(** On the wavio path [read] never returns. *)
Lemma read_audioop_error B filename limit :
  from_file B filename = audioop_error →
  read B filename limit = Raise AttributeError.
Proof.
  intros Herr. unfold read. rewrite Herr.
  by destruct (readwav B filename) as [[fs w] a].
Qed.

Lemma transpose_lengths (a : wav_array) :
  Forall (fun chn => length chn = length (wav_rows a)) (transpose a).
Proof.
  unfold transpose. apply Forall_fmap, Forall_forall. intros c _. simpl.
  by rewrite length_fmap.
Qed.

(** On the wavio path a positive limit keeps [limit * 1000] frames of each
    channel, whatever the sample rate. *)
Lemma wavio_channels_length (a : wav_array) (n : Z) :
  0 < n →
  Forall (fun chn => length chn = Nat.min (Z.to_nat (n * 1000)) (length (wav_rows a)))
         (wavio_channels a (Some n)).
Proof.
  intros Hn. unfold wavio_channels. simpl.
  replace (n =? 0) with false by (symmetry; apply Z.eqb_neq; lia). simpl.
  apply Forall_fmap.
  eapply Forall_impl; [apply transpose_lengths|]. intros chn Hlen. simpl in *.
  rewrite length_fmap, Hlen. unfold slice_to.
  replace (n * 1000 <? 0) with false by (symmetry; apply Z.ltb_ge; lia).
  by rewrite length_take.
Qed.

(** C9: for a file that pydub decodes, a [fingerprint_limit] of null or -1
    makes [read] return the channels of the whole segment, with no slice
    taken, and a positive [fingerprint_limit] those of pydub's slice of the
    first [fingerprint_limit * 1000] milliseconds; the worker, given the
    tuple [(filename, self.limit)] as [fingerprint_directory] sends it or
    the path and [self.limit] as [fingerprint_file] passes them, returns the
    hashes of exactly those channels. *)
Theorem fingerprint_limit_ingest (B : backends) (local_maxima : list Z → Z → list peak)
    (filename : string) (seg : AudioSegment) :
  from_file B filename = Decoded seg →
  (∀ fingerprint_limit kept,
     (fingerprint_limit = None ∧ kept = seg)
     ∨ (fingerprint_limit = Some (-1) ∧ kept = seg)
     ∨ (∃ n, 0 < n ∧ fingerprint_limit = Some n ∧ kept = seg_prefix B seg (n * 1000)) →
     read B filename (Dejavu_limit fingerprint_limit)
     = Ok (channels_of kept, seg_frame_rate kept, unique_hash B filename)
     ∧ (∀ song_name,
          _fingerprint_worker B local_maxima
            (Pair filename (Dejavu_limit fingerprint_limit)) None song_name
          = Ok (or_songname song_name (path_to_songname B filename),
                ⋃ ((fun ch => list_to_set
                                (fingerprint local_maxima ch (seg_frame_rate kept)))
                     <$> channels_of kept),
                unique_hash B filename))
     ∧ (String.length filename ≠ 2%nat →
        ∀ song_name,
          _fingerprint_worker B local_maxima
            (Path filename) (Dejavu_limit fingerprint_limit) song_name
          = Ok (or_songname song_name (path_to_songname B filename),
                ⋃ ((fun ch => list_to_set
                                (fingerprint local_maxima ch (seg_frame_rate kept)))
                     <$> channels_of kept),
                unique_hash B filename))).
Proof.
  intros Hseg fingerprint_limit kept Hcases.
  assert (Hread : read B filename (Dejavu_limit fingerprint_limit)
                  = Ok (channels_of kept, seg_frame_rate kept, unique_hash B filename)).
  { rewrite (read_decoded _ _ _ _ Hseg).
    destruct Hcases as [[-> ->]|[[-> ->]|(n & Hn & -> & ->)]]; [done|done|].
    destruct Dejavu_limit_full_track as (_ & _ & Hlim). rewrite Hlim by lia. cbv zeta.
    by replace (n =? 0) with false by (symmetry; apply Z.eqb_neq; lia). }
  destruct unpack_spec as (Hpair & Hpath & _).
  split; [done|]. split.
  - intros song_name.
    rewrite (fingerprint_worker_ok B local_maxima _ _ _
               (channels_of kept) (seg_frame_rate kept) (unique_hash B filename));
      rewrite Hpair; done.
  - intros Hlen song_name.
    rewrite (fingerprint_worker_ok B local_maxima _ _ _
               (channels_of kept) (seg_frame_rate kept) (unique_hash B filename));
      rewrite (Hpath _ _ Hlen); done.
Qed.

Lemma fingerprint_limit_ingest_witness :
  from_file two_second_backends "tone.wav"
  = Decoded {| seg_samples := [1; 2; 3; 4; 5; 6; 7; 8]; seg_channels := 1;
               seg_frame_rate := 4 |}
  ∧ read two_second_backends "tone.wav" (Dejavu_limit (Some (-1)))
    = Ok ([[1; 2; 3; 4; 5; 6; 7; 8]], 4, unique_hash two_second_backends "tone.wav")
  ∧ read two_second_backends "tone.wav" (Dejavu_limit (Some 1))
    = Ok ([[1; 2; 3; 4]], 4, unique_hash two_second_backends "tone.wav").
Proof.
  split; [reflexivity|].
  pose proof (fingerprint_limit_ingest two_second_backends (fun _ _ => [])
                "tone.wav" _ eq_refl) as H.
  split.
  - destruct (H (Some (-1)) _ (or_intror (or_introl (conj eq_refl eq_refl)))) as (Hr & _).
    exact Hr.
  - destruct (H (Some 1) _
                (or_intror (or_intror
                   (ex_intro _ 1 (conj eq_refl (conj eq_refl eq_refl)))))) as (Hr & _).
    exact Hr.
Defined.

(** ** Binary64 arithmetic: scaling by powers of two is exact *)

(** Settles a boolean comparison of exponents that [lia] can decide. *)
Ltac decide_leb :=
  match goal with
  | |- context [?a <=? ?b] =>
      first [ replace (a <=? b) with true by (symmetry; apply Z.leb_le; lia)
            | replace (a <=? b) with false by (symmetry; apply Z.leb_gt; lia) ]
  end.

(** The exponent [fexp] selects, when the value is not subnormal. *)
Ltac fexp_normal := unfold fexp, emin; lia.

Lemma digits2_pos_size p : digits2_pos p = Pos.size p.
Proof. induction p; simpl; congruence. Qed.

Lemma digits2_pos_log2 p : Z.pos (digits2_pos p) = Z.log2 (Z.pos p) + 1.
Proof. rewrite digits2_pos_size. destruct p; simpl; lia. Qed.

Lemma digits2_pos_bounds p :
  2 ^ (Z.pos (digits2_pos p) - 1) ≤ Z.pos p < 2 ^ Z.pos (digits2_pos p).
Proof.
  rewrite digits2_pos_log2.
  replace (Z.log2 (Z.pos p) + 1 - 1) with (Z.log2 (Z.pos p)) by lia.
  apply Z.log2_spec. lia.
Qed.

Lemma digits2_pos_unique p d :
  2 ^ (d - 1) ≤ Z.pos p < 2 ^ d → Z.pos (digits2_pos p) = d.
Proof.
  intros H. rewrite digits2_pos_log2.
  assert (Hd : 1 ≤ d).
  { destruct (Z.le_gt_cases 1 d) as [|Hlt]; [done|].
    assert (2 ^ d ≤ 1); [|lia].
    destruct (Z.eq_dec d 0) as [->|]; [simpl; lia|].
    rewrite Z.pow_neg_r; lia. }
  rewrite (Z.log2_unique (Z.pos p) (d - 1)); [lia|lia|].
  replace (Z.succ (d - 1)) with d by lia. exact H.
Qed.

Lemma Zdigits2_nonneg q : 0 ≤ Zdigits2 q.
Proof. destruct q; simpl; lia. Qed.

Lemma shr_1_m mrs : 0 ≤ shr_m mrs → shr_m (shr_1 mrs) = shr_m mrs / 2.
Proof.
  destruct mrs as [m r s]. simpl. intros Hm. rewrite <- Z.div2_div.
  destruct m as [|p|p]; [done| |lia]. by destruct p.
Qed.

Lemma iter_shr_m n mrs :
  0 ≤ shr_m mrs →
  shr_m (SpecFloat.iter_pos shr_1 n mrs) = shr_m mrs / 2 ^ Z.pos n.
Proof.
  revert mrs. induction n as [n IH|n IH|]; intros mrs Hm; simpl SpecFloat.iter_pos.
  - assert (H1 : 0 ≤ shr_m (shr_1 mrs)).
    { rewrite shr_1_m by done. apply Z.div_pos; lia. }
    assert (H2 : 0 ≤ shr_m (SpecFloat.iter_pos shr_1 n (shr_1 mrs))).
    { rewrite IH by done. apply Z.div_pos; lia. }
    rewrite IH, IH, shr_1_m by done.
    rewrite !Z.div_div by lia. f_equal.
    rewrite (Pos2Z.inj_xI n).
    replace (2 * Z.pos n + 1) with (1 + Z.pos n + Z.pos n) by lia.
    rewrite !Z.pow_add_r by lia. lia.
  - assert (H2 : 0 ≤ shr_m (SpecFloat.iter_pos shr_1 n mrs)).
    { rewrite IH by done. apply Z.div_pos; lia. }
    rewrite IH, IH by done.
    rewrite !Z.div_div by lia. f_equal.
    rewrite (Pos2Z.inj_xO n).
    replace (2 * Z.pos n) with (Z.pos n + Z.pos n) by lia.
    rewrite !Z.pow_add_r by lia. lia.
  - by rewrite shr_1_m.
Qed.

(** Shifting out zero bits is exact. *)
Lemma shr_1_exact m :
  0 ≤ m →
  shr_1 {| shr_m := m * 2; shr_r := false; shr_s := false |}
  = {| shr_m := m; shr_r := false; shr_s := false |}.
Proof.
  intros Hm. destruct m as [|p|p]; [done| |lia].
  simpl. by rewrite Pos.mul_comm.
Qed.

Lemma iter_shr_exact n m :
  0 ≤ m →
  SpecFloat.iter_pos shr_1 n {| shr_m := m * 2 ^ Z.pos n; shr_r := false; shr_s := false |}
  = {| shr_m := m; shr_r := false; shr_s := false |}.
Proof.
  revert m. induction n as [n IH|n IH|]; intros m Hm; cbn [SpecFloat.iter_pos].
  - replace (m * 2 ^ Z.pos n~1) with (m * 2 ^ Z.pos n * 2 ^ Z.pos n * 2).
    + rewrite shr_1_exact by nia. rewrite IH by nia. by apply IH.
    + rewrite (Pos2Z.inj_xI n).
      replace (2 * Z.pos n + 1) with (Z.pos n + Z.pos n + 1) by lia.
      rewrite !Z.pow_add_r by lia. lia.
  - replace (m * 2 ^ Z.pos n~0) with (m * 2 ^ Z.pos n * 2 ^ Z.pos n).
    + rewrite IH by nia. by apply IH.
    + rewrite (Pos2Z.inj_xO n).
      replace (2 * Z.pos n) with (Z.pos n + Z.pos n) by lia.
      rewrite !Z.pow_add_r by lia. lia.
  - by apply shr_1_exact.
Qed.

(** [shr] divides the mantissa and adds to the exponent. *)
Lemma shr_spec mrs e n :
  0 ≤ shr_m mrs → 0 ≤ n →
  ∃ mrs', shr mrs e n = (mrs', e + n) ∧ shr_m mrs' = shr_m mrs / 2 ^ n.
Proof.
  intros Hm Hn. destruct n as [|p|p]; [| |lia].
  - exists mrs. simpl. split; [f_equal; lia|]. by rewrite Z.div_1_r.
  - exists (SpecFloat.iter_pos shr_1 p mrs). split; [done|]. by apply iter_shr_m.
Qed.

Lemma shr_shift mrs e k n :
  shr mrs (e + k) n = ((shr mrs e n).1, (shr mrs e n).2 + k).
Proof. destruct n; simpl; f_equal; lia. Qed.

Lemma shr_exp_ge mrs e n : e ≤ (shr mrs e n).2.
Proof. destruct n; simpl; lia. Qed.

Lemma round_nearest_even_bounds m l :
  m ≤ round_nearest_even m l ≤ m + 1.
Proof.
  destruct l as [|[]]; simpl; try lia. destruct (Z.even m); lia.
Qed.

Lemma shr_m_record_of_loc m l : shr_m (shr_record_of_loc m l) = m.
Proof. by destruct l as [|[]]. Qed.

(** With at least [prec] digits and no underflow, rounding produces a normal
    mantissa (or overflows). *)
Lemma binary_round_aux_normal s q e l :
  0 < q → 53 ≤ Zdigits2 q → -1074 ≤ e →
  ∃ m' e',
    binary_round_aux 53 1024 s q e l
    = (if e' <=? 971 then S754_finite s m' e' else S754_infinity s)
    ∧ digits2_pos m' = 53%positive
    ∧ e + (Zdigits2 q - 53) ≤ e' ≤ e + (Zdigits2 q - 53) + 1.
Proof.
  intros Hq Hd He. destruct q as [|p|p]; [lia| |lia]. simpl Zdigits2 in *.
  pose proof (digits2_pos_bounds p) as Hp.
  set (d := Z.pos (digits2_pos p)) in *.
  unfold binary_round_aux, shr_fexp.
  simpl Zdigits2. fold d.
  replace (fexp 53 1024 (d + e) - e) with (d - 53) by fexp_normal.
  destruct (shr_spec (shr_record_of_loc (Z.pos p) l) e (d - 53))
    as (mrs1 & Hshr1 & Hm1); [rewrite shr_m_record_of_loc; lia|lia|].
  rewrite Hshr1. rewrite shr_m_record_of_loc in Hm1.
  assert (Hm1b : 2 ^ 52 ≤ shr_m mrs1 < 2 ^ 53).
  { rewrite Hm1.
    assert (Hpow : 2 ^ (d - 1) = 2 ^ 52 * 2 ^ (d - 53)).
    { rewrite <- Z.pow_add_r by lia. f_equal. lia. }
    assert (Hpow' : 2 ^ d = 2 ^ 53 * 2 ^ (d - 53)).
    { rewrite <- Z.pow_add_r by lia. f_equal. lia. }
    assert (0 < 2 ^ (d - 53)) by (apply Z.pow_pos_nonneg; lia).
    split.
    - apply Z.div_le_lower_bound; lia.
    - apply Z.div_lt_upper_bound; lia. }
  pose proof (round_nearest_even_bounds (shr_m mrs1) (loc_of_shr_record mrs1)) as Hr.
  set (m2 := round_nearest_even (shr_m mrs1) (loc_of_shr_record mrs1)) in *.
  destruct (Z.eq_dec m2 (2 ^ 53)) as [Heq|Hne].
  - rewrite Heq.
    replace (fexp 53 1024 (Zdigits2 (2 ^ 53) + (e + (d - 53))) - (e + (d - 53)))
      with 1 by (change (Zdigits2 (2 ^ 53)) with 54; fexp_normal).
    simpl shr. simpl shr_m.
    exists (2 ^ 52)%positive, (e + (d - 53) + 1).
    split; [|split; [done|lia]].
    change (1024 - 53) with 971. done.
  - destruct m2 as [|p2|p2] eqn:Hm2; [lia| |lia].
    assert (Hd2 : Z.pos (digits2_pos p2) = 53).
    { apply digits2_pos_unique. change (53 - 1) with 52. lia. }
    simpl Zdigits2. rewrite Hd2.
    replace (fexp 53 1024 (53 + (e + (d - 53))) - (e + (d - 53)))
      with 0 by fexp_normal.
    simpl shr. simpl shr_m.
    exists p2, (e + (d - 53)).
    split; [|split; [lia|lia]].
    change (1024 - 53) with 971. done.
Qed.

Lemma binary_round_aux_scale s q e l k :
  0 ≤ k → -1021 ≤ e →
  binary_round_aux 53 1024 s q (e + k) l = SFscale k (binary_round_aux 53 1024 s q e l).
Proof.
  intros Hk He. unfold binary_round_aux, shr_fexp.
  pose proof (Zdigits2_nonneg q) as Hdq.
  replace (fexp 53 1024 (Zdigits2 q + (e + k)) - (e + k)) with (Zdigits2 q - 53)
    by fexp_normal.
  replace (fexp 53 1024 (Zdigits2 q + e) - e) with (Zdigits2 q - 53)
    by fexp_normal.
  rewrite shr_shift.
  pose proof (shr_exp_ge (shr_record_of_loc q l) e (Zdigits2 q - 53)) as He1.
  destruct (shr (shr_record_of_loc q l) e (Zdigits2 q - 53)) as [mrs1 e1].
  simpl fst. simpl snd. simpl in He1.
  set (m2 := round_nearest_even (shr_m mrs1) (loc_of_shr_record mrs1)).
  pose proof (Zdigits2_nonneg m2) as Hd2.
  replace (fexp 53 1024 (Zdigits2 m2 + (e1 + k)) - (e1 + k)) with (Zdigits2 m2 - 53)
    by fexp_normal.
  replace (fexp 53 1024 (Zdigits2 m2 + e1) - e1) with (Zdigits2 m2 - 53)
    by fexp_normal.
  rewrite shr_shift.
  destruct (shr (shr_record_of_loc m2 loc_Exact) e1 (Zdigits2 m2 - 53)) as [mrs2 e2].
  simpl fst. simpl snd.
  change (1024 - 53) with 971.
  destruct (shr_m mrs2) as [|p|p]; [done| |done].
  destruct (e2 <=? 971) eqn:H2; simpl.
  - done.
  - apply Z.leb_gt in H2. replace (e2 + k <=? 971) with false; [done|].
    symmetry. apply Z.leb_gt. lia.
Qed.

Lemma fmul_pow2 s m e k :
  digits2_pos m = 53%positive → -1074 ≤ e + k ≤ 971 →
  fmul (S754_finite s m e) (S754_finite false (2 ^ 52) (k - 52))
  = S754_finite s m (e + k).
Proof.
  intros Hd Hek. unfold fmul, prec, emax, SFmul. rewrite xorb_false_r.
  pose proof (digits2_pos_bounds m) as Hm. rewrite Hd in Hm.
  change (53 - 1) with 52 in Hm.
  assert (Hq : Z.pos (m * 2 ^ 52) = Z.pos m * 2 ^ 52) by done.
  assert (Hdq : Z.pos (digits2_pos (m * 2 ^ 52)) = 105).
  { apply digits2_pos_unique. rewrite Hq.
    change (2 ^ (105 - 1)) with (2 ^ 52 * 2 ^ 52).
    change (2 ^ 105) with (2 ^ 53 * 2 ^ 52). lia. }
  unfold binary_round_aux, shr_fexp. simpl Zdigits2. rewrite Hdq.
  replace (fexp 53 1024 (105 + (e + (k - 52))) - (e + (k - 52))) with 52
    by fexp_normal.
  cbn [shr shr_record_of_loc]. rewrite Hq.
  rewrite (iter_shr_exact 52 (Z.pos m)) by lia.
  cbn [shr_m loc_of_shr_record round_nearest_even Zdigits2]. rewrite Hd.
  replace (fexp 53 1024 (53 + (e + (k - 52) + 52)) - (e + (k - 52) + 52)) with 0
    by fexp_normal.
  cbn [shr shr_record_of_loc shr_m].
  change (1024 - 53) with 971.
  replace (e + (k - 52) + 52) with (e + k) by lia.
  replace (e + k <=? 971) with true; [done|].
  symmetry. apply Z.leb_le. lia.
Qed.

Lemma iter_xO_pow p x : Z.pos (Pos.iter xO p x) = Z.pos p * 2 ^ Z.pos x.
Proof.
  induction x as [|x IH] using Pos.peano_ind.
  - simpl. lia.
  - rewrite Pos.iter_succ, Pos2Z.inj_xO, IH, Pos2Z.inj_succ, Z.pow_succ_r by lia. lia.
Qed.

Lemma binary_round_normal s p :
  Z.pos p < 2 ^ 1011 →
  ∃ m e, binary_round 53 1024 s p 0 = S754_finite s m e
              ∧ digits2_pos m = 53%positive ∧ -52 ≤ e ≤ 959.
Proof.
  intros Hlt. unfold binary_round.
  pose proof (digits2_pos_bounds p) as Hp.
  set (d := Z.pos (digits2_pos p)) in *.
  assert (Hd : 1 ≤ d ≤ 1011).
  { split; [lia|]. destruct (Z.le_gt_cases d 1011) as [|Hgt]; [done|].
    assert (2 ^ 1011 ≤ 2 ^ (d - 1)) by (apply Z.pow_le_mono_r; lia). lia. }
  replace (fexp 53 1024 (d + 0)) with (d - 53) by fexp_normal.
  unfold shl_align.
  destruct (d - 53 - 0) as [|x|x] eqn:Hx.
  - destruct (binary_round_aux_normal s (Z.pos p) 0 loc_Exact)
      as (m & e & Heq & Hm & He); [lia|simpl; lia|lia|].
    simpl Zdigits2 in He. fold d in He.
    exists m, e. rewrite Heq.
    decide_leb.
    split; [done|]. split; [done|lia].
  - destruct (binary_round_aux_normal s (Z.pos p) 0 loc_Exact)
      as (m & e & Heq & Hm & He); [lia|simpl; lia|lia|].
    simpl Zdigits2 in He. fold d in He.
    exists m, e. rewrite Heq.
    decide_leb.
    split; [done|]. split; [done|lia].
  - assert (Hdz : Z.pos (digits2_pos (Pos.iter xO p x)) = 53).
    { apply digits2_pos_unique. rewrite iter_xO_pow.
      assert (Hx' : Z.pos x = 53 - d) by lia. rewrite Hx'.
      assert (2 ^ (53 - 1) = 2 ^ (d - 1) * 2 ^ (53 - d)).
      { rewrite <- Z.pow_add_r by lia. f_equal. lia. }
      assert (2 ^ 53 = 2 ^ d * 2 ^ (53 - d)).
      { rewrite <- Z.pow_add_r by lia. f_equal. lia. }
      assert (0 < 2 ^ (53 - d)) by (apply Z.pow_pos_nonneg; lia).
      nia. }
    destruct (binary_round_aux_normal s (Z.pos (Pos.iter xO p x)) (d - 53) loc_Exact)
      as (m & e & Heq & Hm & He); [lia|simpl; lia|lia|].
    simpl Zdigits2 in He. rewrite Hdz in He.
    exists m, e. rewrite Heq.
    decide_leb.
    split; [done|]. split; [done|lia].
Qed.

Lemma float_of_int_normal n :
  n ≠ 0 → Z.abs n < 2 ^ 1011 →
  ∃ s m e, float_of_int n = S754_finite s m e
                ∧ digits2_pos m = 53%positive ∧ -52 ≤ e ≤ 959.
Proof.
  intros Hn Hlt. unfold float_of_int, binary_normalize.
  destruct n as [|p|p]; [done| |].
  - destruct (binary_round_normal false p) as (m & e & H); [lia|]. by exists false, m, e.
  - destruct (binary_round_normal true p) as (m & e & H); [lia|]. by exists true, m, e.
Qed.

(** Below [2 ^ 1023] the nearest double is finite. *)
Lemma binary_round_finite s p :
  Z.pos p < 2 ^ 1023 →
  ∃ m e, binary_round 53 1024 s p 0 = S754_finite s m e.
Proof.
  intros Hlt. unfold binary_round.
  pose proof (digits2_pos_bounds p) as Hp.
  set (d := Z.pos (digits2_pos p)) in *.
  assert (Hd : 1 ≤ d ≤ 1023).
  { split; [lia|]. destruct (Z.le_gt_cases d 1023) as [|Hgt]; [done|].
    assert (2 ^ 1023 ≤ 2 ^ (d - 1)) by (apply Z.pow_le_mono_r; lia). lia. }
  replace (fexp 53 1024 (d + 0)) with (d - 53) by fexp_normal.
  unfold shl_align.
  destruct (d - 53 - 0) as [|x|x] eqn:Hx.
  - destruct (binary_round_aux_normal s (Z.pos p) 0 loc_Exact)
      as (m & e & Heq & Hm & He); [lia|simpl; lia|lia|].
    simpl Zdigits2 in He. fold d in He.
    exists m, e. rewrite Heq. by decide_leb.
  - destruct (binary_round_aux_normal s (Z.pos p) 0 loc_Exact)
      as (m & e & Heq & Hm & He); [lia|simpl; lia|lia|].
    simpl Zdigits2 in He. fold d in He.
    exists m, e. rewrite Heq. by decide_leb.
  - assert (Hdz : Z.pos (digits2_pos (Pos.iter xO p x)) = 53).
    { apply digits2_pos_unique. rewrite iter_xO_pow.
      assert (Hx' : Z.pos x = 53 - d) by lia. rewrite Hx'.
      assert (2 ^ (53 - 1) = 2 ^ (d - 1) * 2 ^ (53 - d)).
      { rewrite <- Z.pow_add_r by lia. f_equal. lia. }
      assert (2 ^ 53 = 2 ^ d * 2 ^ (53 - d)).
      { rewrite <- Z.pow_add_r by lia. f_equal. lia. }
      assert (0 < 2 ^ (53 - d)) by (apply Z.pow_pos_nonneg; lia).
      nia. }
    destruct (binary_round_aux_normal s (Z.pos (Pos.iter xO p x)) (d - 53) loc_Exact)
      as (m & e & Heq & Hm & He); [lia|simpl; lia|lia|].
    simpl Zdigits2 in He. rewrite Hdz in He.
    exists m, e. rewrite Heq. by decide_leb.
Qed.

(** From [2 ^ 1024] on it is an infinity. *)
Lemma binary_round_overflow s p :
  2 ^ 1024 ≤ Z.pos p → binary_round 53 1024 s p 0 = S754_infinity s.
Proof.
  intros Hge. unfold binary_round.
  pose proof (digits2_pos_bounds p) as Hp.
  set (d := Z.pos (digits2_pos p)) in *.
  assert (Hd : 1025 ≤ d).
  { destruct (Z.le_gt_cases 1025 d) as [|Hgt]; [done|].
    assert (2 ^ d ≤ 2 ^ 1024) by (apply Z.pow_le_mono_r; lia). lia. }
  replace (fexp 53 1024 (d + 0)) with (d - 53) by fexp_normal.
  unfold shl_align.
  destruct (d - 53 - 0) as [|x|x] eqn:Hx; [lia| |lia].
  destruct (binary_round_aux_normal s (Z.pos p) 0 loc_Exact)
    as (m & e & Heq & Hm & He); [lia|simpl; lia|lia|].
  simpl Zdigits2 in He. fold d in He.
  rewrite Heq. by decide_leb.
Qed.

Lemma py_float_ok n : Z.abs n < 2 ^ 1023 → py_float n = Ok (float_of_int n).
Proof.
  intros Hlt. unfold py_float, float_of_int, binary_normalize, prec, emax.
  destruct n as [|p|p]; [done| |]; cbv beta iota.
  - destruct (binary_round_finite false p) as (m & e & ->); [lia|done].
  - destruct (binary_round_finite true p) as (m & e & ->); [lia|done].
Qed.

Lemma py_float_overflow n : 2 ^ 1024 ≤ Z.abs n → py_float n = Raise OverflowError.
Proof.
  intros Hge. unfold py_float, float_of_int, binary_normalize, prec, emax.
  destruct n as [|p|p]; [simpl in Hge; lia| |]; cbv beta iota.
  - by rewrite binary_round_overflow by lia.
  - by rewrite binary_round_overflow by lia.
Qed.

Lemma float_of_int_44100 :
  float_of_int 44100 = S754_finite false 6061057848115200 (-37).
Proof. vm_compute. reflexivity. Qed.

Lemma float_of_int_4096 :
  float_of_int 4096 = S754_finite false (2 ^ 52) (12 - 52).
Proof. vm_compute. reflexivity. Qed.

Lemma overlap_ratio_pow2 :
  DEFAULT_OVERLAP_RATIO = S754_finite false (2 ^ 52) (-1 - 52).
Proof. reflexivity. Qed.

(** Dividing a normal float by 44100.0: the quotient of the mantissas, taken
    with 53 extra bits, is rounded at an exponent that follows the
    dividend's. *)
Lemma fdiv_44100 s m e :
  digits2_pos m = 53%positive → -1000 ≤ e →
  fdiv (S754_finite s m e) (float_of_int 44100)
  = binary_round_aux 53 1024 s
      (Z.shiftl (Z.pos m) 53 / 6061057848115200) (e - 16)
      (new_location 6061057848115200 (Z.shiftl (Z.pos m) 53 mod 6061057848115200)).
Proof.
  intros Hd He. rewrite float_of_int_44100. unfold fdiv, SFdiv, SFdiv_core_binary.
  rewrite xorb_false_r.
  cbn [Zdigits2]. rewrite Hd.
  change (Z.pos (digits2_pos 6061057848115200)) with 53.
  replace (Z.min (fexp prec emax (53 + e - (53 + -37))) (e - -37)) with (e - 16)
    by (unfold fexp, emin, prec, emax; lia).
  replace (e - -37 - (e - 16)) with 53 by lia.
  cbv iota.
  unfold Z.div, Z.modulo.
  by destruct (Z.div_eucl (Z.shiftl (Z.pos m) 53) 6061057848115200) as [q r].
Qed.

Lemma quotient_44100_bounds m :
  digits2_pos m = 53%positive →
  2 ^ 52 ≤ Z.shiftl (Z.pos m) 53 / 6061057848115200 < 2 ^ 54.
Proof.
  intros Hd. pose proof (digits2_pos_bounds m) as Hm. rewrite Hd in Hm.
  change (53 - 1) with 52 in Hm.
  rewrite Z.shiftl_mul_pow2 by lia. split.
  - apply Z.div_le_lower_bound; lia.
  - apply Z.div_lt_upper_bound; lia.
Qed.

Lemma seconds_div_order largest :
  Z.abs largest < 2 ^ 1011 →
  seconds_div_first largest = seconds_div_last largest.
Proof.
  intros Hlt. unfold seconds_div_first, seconds_div_last.
  unfold DEFAULT_FS, DEFAULT_WINDOW_SIZE.
  destruct (Z.eq_dec largest 0) as [->|Hne]; [vm_compute; reflexivity|].
  destruct (float_of_int_normal largest Hne Hlt) as (s & m & e & -> & Hd & He).
  rewrite float_of_int_4096, overlap_ratio_pow2.
  rewrite (fmul_pow2 s m e 12) by (done || lia).
  rewrite (fmul_pow2 s m (e + 12) (-1)) by (done || lia).
  rewrite !fdiv_44100 by (done || lia).
  pose proof (quotient_44100_bounds m Hd) as Hq.
  set (q := Z.shiftl (Z.pos m) 53 / 6061057848115200) in *.
  set (l := new_location 6061057848115200 (Z.shiftl (Z.pos m) 53 mod 6061057848115200)).
  replace (e + 12 + -1 - 16) with (e - 16 + 11) by lia.
  rewrite (binary_round_aux_scale s q (e - 16) l 11) by lia.
  destruct q as [|pq|pq] eqn:Hpq; [lia| |lia].
  assert (Hdq : 53 ≤ Z.pos (digits2_pos pq) ≤ 54).
  { pose proof (digits2_pos_bounds pq) as Hb.
    split.
    - destruct (Z.le_gt_cases 53 (Z.pos (digits2_pos pq))) as [|Hgt]; [done|].
      assert (2 ^ Z.pos (digits2_pos pq) ≤ 2 ^ 52) by (apply Z.pow_le_mono_r; lia). lia.
    - destruct (Z.le_gt_cases (Z.pos (digits2_pos pq)) 54) as [|Hgt]; [done|].
      assert (2 ^ 54 ≤ 2 ^ (Z.pos (digits2_pos pq) - 1)) by (apply Z.pow_le_mono_r; lia).
      lia. }
  destruct (binary_round_aux_normal s (Z.pos pq) (e - 16) l)
    as (mD & eD & -> & HmD & HeD); [lia|simpl; lia|lia|].
  simpl Zdigits2 in HeD.
  decide_leb.
  rewrite (fmul_pow2 s mD eD 12) by (done || lia).
  rewrite (fmul_pow2 s mD (eD + 12) (-1)) by (done || lia).
  unfold SFscale.
  decide_leb.
  f_equal. lia.
Qed.

(** ** The offset in seconds *)

(** The values Python prints as 0.04644, 573.30068 and -0.32508. *)
Example nseconds_values :
  nseconds 1 = Ok (S754_finite false 6692709334242747 (-57))
  ∧ nseconds 12345 = Ok (S754_finite false 5042806110975102 (-43))
  ∧ nseconds (-7) = Ok (S754_finite true 5856120667462403 (-54))
  ∧ nseconds 0 = Ok (S754_zero false).
Proof. repeat split; vm_compute; reflexivity. Qed.

Lemma nseconds_spec largest :
  Z.abs largest < 2 ^ 1011 → nseconds largest = Ok (spec_offset_seconds largest).
Proof.
  intros Hlt. unfold nseconds, spec_offset_seconds.
  rewrite py_float_ok by (assert (2 ^ 1011 < 2 ^ 1023) by (by apply Z.pow_lt_mono_r); lia).
  by rewrite <- (seconds_div_order largest Hlt).
Qed.

(** Beyond the range of the lemma the multiplication made first overflows. *)
Remark seconds_div_order_overflow :
  seconds_div_last (2 ^ 1012) = S754_infinity false
  ∧ seconds_div_first (2 ^ 1012) ≠ S754_infinity false.
Proof. split; [vm_compute; reflexivity|]. by vm_compute. Qed.

(** C5: the catalog has no row for -1, the value [song_id] starts with
    (identifiers are issued by the database).  Then [align_matches] returns
    [None] for zero input pairs, and it returns [None] exactly when there is
    no input pair or the catalog has no row for the winning pair's song, one
    of the songs of the input.  Otherwise, for a winning difference below
    [2 ** 1023] in absolute value, it returns the descriptor with song_id,
    song_name, confidence, offset, offset_seconds and file_sha1; from
    [2 ** 1024] on, [float(largest)] raises [OverflowError]. *)
Theorem align_matches_null_iff (get_song_by_id : catalog) :
  get_song_by_id (-1) = None →
  align_matches get_song_by_id [] = Ok None
  ∧ (∀ matches,
       align_matches get_song_by_id matches = Ok None
       ↔ matches = [] ∨ get_song_by_id (song_id (align_loop matches)) = None)
  ∧ (∀ matches, matches ≠ [] →
       (song_id (align_loop matches), largest (align_loop matches)) ∈ matches)
  ∧ (∀ matches song,
       get_song_by_id (song_id (align_loop matches)) = Some song →
       Z.abs (largest (align_loop matches)) < 2 ^ 1023 →
       align_matches get_song_by_id matches
       = Ok (Some {| SONG_ID := song_id (align_loop matches);
                     SONG_NAME := row_song_name song;
                     CONFIDENCE := largest_count (align_loop matches);
                     OFFSET := largest (align_loop matches);
                     OFFSET_SECS :=
                       py_round (seconds_div_first (largest (align_loop matches))) 5;
                     FIELD_FILE_SHA1 := row_file_sha1 song |}))
  ∧ (∀ matches song,
       get_song_by_id (song_id (align_loop matches)) = Some song →
       2 ^ 1024 ≤ Z.abs (largest (align_loop matches)) →
       align_matches get_song_by_id matches = Raise OverflowError).
Proof.
  intros Hsentinel.
  split; [by apply (align_matches_None get_song_by_id [])|].
  split; [|split; [exact align_loop_winner_in|split]].
  - intros matches. rewrite align_matches_None. split; [by right|].
    intros [->|Hnone]; done.
  - intros matches song Hsong Hlt. unfold align_matches, nseconds. cbv zeta.
    by rewrite Hsong, (py_float_ok _ Hlt).
  - intros matches song Hsong Hge. unfold align_matches, nseconds. cbv zeta.
    by rewrite Hsong, (py_float_overflow _ Hge).
Qed.

Lemma align_matches_null_iff_witness :
  catalog_with_song_one (-1) = None
  ∧ align_matches catalog_with_song_one [] = Ok None
  ∧ align_matches catalog_with_song_one [(2, 5); (1, 7); (2, 5)] = Ok None
  ∧ align_matches catalog_with_song_one [(1, 7); (2, 5); (1, 7)]
    = Ok (Some (MatchInfo 1 "song" 2 7 (S754_finite false 5856120667462403 (-54)) "ABCD"))
  ∧ align_matches catalog_with_song_one [(1, 2 ^ 1024)] = Raise OverflowError.
Proof.
  assert (Hsentinel : catalog_with_song_one (-1) = None) by reflexivity.
  destruct (align_matches_null_iff catalog_with_song_one Hsentinel)
    as (Hnil & Hnone & _ & Hsome & Hraise).
  split; [exact Hsentinel|]. split; [exact Hnil|].
  split; [apply Hnone; right; reflexivity|].
  split.
  - etrans; [apply (Hsome [(1, 7); (2, 5); (1, 7)] (SongRow "song" "ABCD"));
             [reflexivity|by vm_compute]|].
    vm_compute. reflexivity.
  - apply (Hraise [(1, 2 ^ 1024)] (SongRow "song" "ABCD")); [reflexivity|by vm_compute].
Defined.

(** C6: the [offset_seconds] field of the descriptor [align_matches] returns
    is [round(delta * 4096 * 0.5 / 44100, 5)] for the winning difference
    [delta], the [offset] field: the source divides by the sample rate first
    and multiplies by the window size and the overlap ratio afterwards, which
    in binary64 arithmetic gives the same double, the two factors being powers
    of two.  (The bound keeps [delta * 4096] within the range of a double.) *)
Theorem offset_seconds_formula (get_song_by_id : catalog) (matches : list (Z * Z))
    (info : match_info) :
  align_matches get_song_by_id matches = Ok (Some info) →
  Z.abs (OFFSET info) < 2 ^ 1011 →
  OFFSET info = largest (align_loop matches)
  ∧ OFFSET_SECS info
    = py_round
        (fdiv (fmul (fmul (float_of_int (OFFSET info)) (float_of_int 4096))
                    DEFAULT_OVERLAP_RATIO)
              (float_of_int 44100))
        5.
Proof.
  unfold align_matches. cbv zeta.
  destruct (get_song_by_id (song_id (align_loop matches))) as [song|]; [|done].
  destruct (nseconds (largest (align_loop matches))) as [x|e] eqn:Hx; [|done].
  intros [= <-]. simpl. intros Hlt. split; [done|].
  rewrite (nseconds_spec _ Hlt) in Hx. by injection Hx as <-.
Qed.

Lemma offset_seconds_formula_witness :
  align_matches (fun _ => Some (SongRow "song" "ABCD")) [(1, 12345); (2, 7); (1, 12345)]
  = Ok (Some (MatchInfo 1 "song" 2 12345 (S754_finite false 5042806110975102 (-43)) "ABCD"))
  ∧ Z.abs 12345 < 2 ^ 1011
  ∧ 12345 = largest (align_loop [(1, 12345); (2, 7); (1, 12345)])
  ∧ S754_finite false 5042806110975102 (-43)
    = py_round
        (fdiv (fmul (fmul (float_of_int 12345) (float_of_int 4096))
                    DEFAULT_OVERLAP_RATIO)
              (float_of_int 44100))
        5.
Proof.
  assert (H : align_matches (fun _ => Some (SongRow "song" "ABCD"))
                [(1, 12345); (2, 7); (1, 12345)]
              = Ok (Some (MatchInfo 1 "song" 2 12345
                            (S754_finite false 5042806110975102 (-43)) "ABCD")))
    by (vm_compute; reflexivity).
  assert (Hlt : Z.abs 12345 < 2 ^ 1011) by (vm_compute; reflexivity).
  split; [exact H|]. split; [exact Hlt|].
  exact (offset_seconds_formula _ _ _ H Hlt).
Defined.

(** ** Strided slices: [chunkify] and the channels of [read] *)

Lemma omap_seq_lookup {A} (g : nat → option A) (n k : nat) :
  (∀ j, is_Some (g (S j)) → is_Some (g j)) →
  omap g (seq 0 n) !! k = if decide (k < n)%nat then g k else None.
Proof.
  intros Hdown.
  assert (Hall : ∀ m j, (j ≤ m)%nat → is_Some (g m) → is_Some (g j)).
  { intros m j Hj. induction Hj as [|m Hm IHm]; [done|]. intros H. by apply IHm, Hdown. }
  revert k. induction n as [|n IH]; intros k.
  { by rewrite decide_False by lia. }
  rewrite seq_S, omap_app. simpl.
  assert (Hlen : is_Some (g n) → length (omap g (seq 0 n)) = n).
  { intros Hn. apply Nat.le_antisymm.
    - apply Nat.nlt_ge. intros Hlt. apply lookup_lt_is_Some in Hlt.
      rewrite IH, decide_False in Hlt by lia. by destruct Hlt.
    - destruct n as [|n']; [lia|]. apply lookup_lt_is_Some.
      rewrite IH, decide_True by lia. apply (Hall (S n')); [lia|done]. }
  destruct (g n) as [x|] eqn:Hn.
  - specialize (Hlen (mk_is_Some _ _ eq_refl)).
    destruct (decide (k < n)%nat) as [Hk|Hk].
    + rewrite lookup_app_l by lia. rewrite IH, decide_True by done. by rewrite decide_True by lia.
    + rewrite lookup_app_r by lia. rewrite Hlen.
      destruct (decide (k = n)) as [->|Hne].
      * rewrite Nat.sub_diag. simpl. by rewrite decide_True by lia.
      * rewrite decide_False by lia. by destruct (k - n)%nat eqn:E; [lia|].
  - rewrite app_nil_r, IH.
    destruct (decide (k < n)%nat) as [Hk|Hk].
    + by rewrite decide_True by lia.
    + destruct (decide (k = n)) as [->|Hne].
      * by rewrite decide_True by lia.
      * by rewrite decide_False by lia.
Qed.

(** [data[start::step]] holds the elements at [start], [start + step], ... *)
Lemma stride_lookup {A} (data : list A) (start step k : nat) :
  (0 < step)%nat →
  stride data start step !! k = data !! (start + k * step)%nat.
Proof.
  intros Hstep. unfold stride. rewrite omap_seq_lookup.
  - case_decide as Hk; [done|]. symmetry. apply lookup_ge_None. nia.
  - intros j Hj. apply lookup_lt_is_Some in Hj. apply lookup_lt_is_Some. nia.
Qed.

Lemma stride_nil {A} (start step : nat) : stride (@nil A) start step = [].
Proof. reflexivity. Qed.

Lemma stride_cons_S {A} (x : A) l i n :
  (0 < n)%nat → stride (x :: l) (S i) n = stride l i n.
Proof. intros Hn. apply list_eq. intros k. by rewrite !stride_lookup. Qed.

Lemma stride_cons_0 {A} (x : A) l n :
  (0 < n)%nat → stride (x :: l) 0 n = x :: stride l (n - 1) n.
Proof.
  intros Hn. apply list_eq. intros [|k]; rewrite stride_lookup by done; [done|].
  simpl. rewrite stride_lookup by done.
  replace (n + k * n)%nat with (S (n - 1 + k * n)) by lia. done.
Qed.

Lemma strides_cons {A} (x : A) l n :
  strides (x :: l) (S n)
  = (x :: stride l n (S n)) :: ((fun i => stride l i (S n)) <$> seq 0 n).
Proof.
  unfold strides. rewrite <- cons_seq, fmap_cons, stride_cons_0 by lia.
  rewrite Nat.sub_succ, Nat.sub_0_r. f_equal.
  rewrite <- fmap_S_seq, <- list_fmap_compose. apply list_fmap_ext.
  intros _ i _. simpl. apply stride_cons_S. lia.
Qed.

Lemma strides_concat {A} (l : list A) n : (0 < n)%nat → concat (strides l n) ≡ₚ l.
Proof.
  intros Hn. destruct n as [|n]; [lia|]. clear Hn.
  induction l as [|x l IH].
  - unfold strides. induction (seq 0 (S n)) as [|i s IHs]; [done|].
    rewrite fmap_cons. simpl. by rewrite IHs.
  - rewrite strides_cons. simpl. constructor.
    rewrite <- IH at 2. unfold strides. rewrite seq_S, fmap_app, concat_app. simpl.
    rewrite app_nil_r. apply Permutation_app_comm.
Qed.

Lemma length_strides {A} (l : list A) n : length (strides l n) = n.
Proof. unfold strides. by rewrite length_fmap, length_seq. Qed.

Lemma strides_lookup {A} (l : list A) n i :
  (i < n)%nat → strides l n !! i = Some (stride l i n).
Proof.
  intros Hi. unfold strides. rewrite list_lookup_fmap.
  by rewrite (proj2 (lookup_seq 0 n i i)) by (split; [done|lia]).
Qed.

Lemma strides_lookup_inv {A} (l : list A) n i c :
  strides l n !! i = Some c → (i < n)%nat ∧ c = stride l i n.
Proof.
  intros Hc. assert (Hi : (i < n)%nat).
  { apply lookup_lt_Some in Hc. by rewrite length_strides in Hc. }
  rewrite strides_lookup in Hc by done. by injection Hc as <-.
Qed.

(** Element [m] of the list is element [m / n] of chunk [m mod n]. *)
Lemma strides_element {A} (l : list A) n m :
  (0 < n)%nat →
  l !! m = strides l n !! (m mod n)%nat ≫= fun c => c !! (m / n)%nat.
Proof.
  intros Hn. rewrite strides_lookup by (apply Nat.mod_upper_bound; lia). simpl.
  rewrite stride_lookup by done. f_equal.
  rewrite (Nat.div_mod m n) at 1 by lia. lia.
Qed.

Lemma length_stride_le {A} (l : list A) i n k :
  (0 < n)%nat →
  (length (stride l i n) ≤ k)%nat ↔ (length l ≤ i + k * n)%nat.
Proof.
  intros Hn. rewrite <- !lookup_ge_None. by rewrite stride_lookup.
Qed.

Lemma strides_balanced {A} (l : list A) n i j ci cj :
  strides l n !! i = Some ci → strides l n !! j = Some cj → (i ≤ j)%nat →
  (length cj ≤ length ci ≤ length cj + 1)%nat.
Proof.
  intros [Hi ->]%strides_lookup_inv [Hj ->]%strides_lookup_inv Hij.
  assert (Hn : (0 < n)%nat) by lia.
  pose proof (proj1 (length_stride_le l i n _ Hn) (Nat.le_refl _)) as H1.
  pose proof (proj1 (length_stride_le l j n _ Hn) (Nat.le_refl _)) as H2.
  split.
  - apply (length_stride_le l j n); [done|]. lia.
  - apply (length_stride_le l i n); [done|]. nia.
Qed.

(** For [n >= 1], [chunkify] deals the list into [n] chunks round-robin:
    element [m] is element [m / n] of chunk [m mod n], every chunk position
    holds such an element, and the chunks together are a rearrangement of the
    list. *)
Theorem chunkify_partition {A} (lst : list A) (n : Z) :
  1 ≤ n →
  length (chunkify lst n) = Z.to_nat n
  ∧ concat (chunkify lst n) ≡ₚ lst
  ∧ (∀ m : nat,
       lst !! m = chunkify lst n !! (m mod Z.to_nat n)%nat
                  ≫= fun chunk => chunk !! (m / Z.to_nat n)%nat)
  ∧ (∀ (i k : nat) chunk,
       chunkify lst n !! i = Some chunk →
       chunk !! k = lst !! (i + k * Z.to_nat n)%nat).
Proof.
  intros Hn. change (chunkify lst n) with (strides lst (Z.to_nat n)).
  split; [apply length_strides|].
  split; [apply strides_concat; lia|].
  split; [intros m; apply strides_element; lia|].
  intros i k chunk [Hi ->]%strides_lookup_inv. apply stride_lookup. lia.
Qed.

Lemma chunkify_partition_witness :
  1 ≤ 3
  ∧ chunkify [10; 11; 12; 13; 14; 15; 16] 3 = [[10; 13; 16]; [11; 14]; [12; 15]]
  ∧ concat (chunkify [10; 11; 12; 13; 14; 15; 16] 3) ≡ₚ [10; 11; 12; 13; 14; 15; 16].
Proof.
  split; [lia|]. split; [reflexivity|].
  destruct (chunkify_partition [10; 11; 12; 13; 14; 15; 16] 3) as (_ & H & _); [lia|].
  exact H.
Defined.

(** The chunks of [chunkify] never grow along the list of chunks and
    differ in length by at most one; for [n <= 0] the result is the empty
    list, whatever the input (no error, the elements are dropped). *)
Theorem chunkify_sizes :
  (∀ (A : Type) (lst : list A) (n : Z) (i j : nat) (ci cj : list A),
     chunkify lst n !! i = Some ci → chunkify lst n !! j = Some cj → (i ≤ j)%nat →
     (length cj ≤ length ci ≤ length cj + 1)%nat)
  ∧ (∀ (A : Type) (lst : list A) (n : Z), n ≤ 0 → chunkify lst n = [])
  ∧ (∀ (A : Type) (n : Z), chunkify (@nil A) n = replicate (Z.to_nat n) []).
Proof.
  split; [|split].
  - intros A lst n i j ci cj. apply strides_balanced.
  - intros A lst n Hn. unfold chunkify. by replace (Z.to_nat n) with 0%nat by lia.
  - intros A n. unfold chunkify. generalize (Z.to_nat n) at 1 as step. intros step.
    generalize 0%nat. induction (Z.to_nat n) as [|k IH]; intros s; [done|].
    simpl. by rewrite IH.
Qed.

(** For a file that pydub decodes, read without a limit, [read] returns
    one channel per channel of the segment and the segment's frame rate;
    sample [m] of the interleaved data is sample [m / channels] of channel
    [m mod channels], and the channels together hold exactly the samples of
    the data. *)
Theorem read_deinterleave (B : backends) (filename : string) (seg : AudioSegment) :
  from_file B filename = Decoded seg →
  (0 < seg_channels seg)%nat →
  ∃ channels : list (list Z),
    read B filename None = Ok (channels, seg_frame_rate seg, unique_hash B filename)
    ∧ length channels = seg_channels seg
    ∧ concat channels ≡ₚ seg_samples seg
    ∧ (∀ m : nat,
         seg_samples seg !! m
         = channels !! (m mod seg_channels seg)%nat
           ≫= fun channel => channel !! (m / seg_channels seg)%nat)
    ∧ (∀ (i j : nat) ci cj,
         channels !! i = Some ci → channels !! j = Some cj → (i ≤ j)%nat →
         (length cj ≤ length ci ≤ length cj + 1)%nat).
Proof.
  intros Hseg Hc. exists (channels_of seg).
  split; [by rewrite (read_decoded _ _ _ _ Hseg)|].
  change (channels_of seg) with (strides (seg_samples seg) (seg_channels seg)).
  split; [apply length_strides|].
  split; [by apply strides_concat|].
  split; [intros m; by apply strides_element|].
  intros i j ci cj. apply strides_balanced.
Qed.

Lemma read_deinterleave_witness :
  from_file stereo_backends "song.mp3"
  = Decoded {| seg_samples := [1; 2; 3; 4]; seg_channels := 2; seg_frame_rate := 44100 |}
  ∧ ∃ channels : list (list Z),
      read stereo_backends "song.mp3" None
      = Ok (channels, 44100, unique_hash stereo_backends "song.mp3")
      ∧ length channels = 2%nat
      ∧ concat channels ≡ₚ [1; 2; 3; 4].
Proof.
  split; [reflexivity|].
  destruct (read_deinterleave stereo_backends "song.mp3"
              {| seg_samples := [1; 2; 3; 4]; seg_channels := 2; seg_frame_rate := 44100 |}
              eq_refl) as (channels & H1 & H2 & H3 & _); [simpl; lia|].
  exists channels. split; [exact H1|]. split; [exact H2|exact H3].
Defined.


(** ** [unique_hash]: the block size does not matter *)




Lemma upper_hex_digit x : is_upper_hex (upper_ascii (SHA1.hex_digit x)) = true.
Proof.
  unfold SHA1.hex_digit.
  assert (H : 0 ≤ Z.land x 15 < 16).
  { change 15 with (Z.ones 4). rewrite Z.land_ones by lia. apply Z.mod_pos_bound. lia. }
  assert (Hn : (Z.to_nat (Z.land x 15) < 16)%nat) by lia.
  revert Hn. generalize (Z.to_nat (Z.land x 15)). intros n Hn.
  do 16 (destruct n as [|n]; [reflexivity|]). lia.
Qed.

Lemma upper_of_list (l : list ascii) :
  upper (string_of_list_ascii l) = string_of_list_ascii (upper_ascii <$> l).
Proof. induction l as [|c l IH]; simpl; [done|]. by rewrite IH. Qed.

Lemma upper_hexdigest_spec (msg : list Z) :
  String.length (upper (SHA1.hexdigest msg)) = 40%nat
  ∧ Forall (fun c => is_upper_hex c = true)
           (list_ascii_of_string (upper (SHA1.hexdigest msg))).
Proof.
  unfold SHA1.hexdigest. rewrite upper_of_list.
  rewrite length_string_of_list, length_fmap, list_ascii_of_string_of_list_ascii.
  split; [apply hex_state_spec|].
  apply Forall_fmap. unfold SHA1.hex_state, SHA1.hex_word.
  rewrite !Forall_app. cbn [fmap list_fmap].
  repeat split; repeat constructor; apply upper_hex_digit.
Qed.


(** The identifier [unique_hash] gives a file is forty characters, each
    a digit or one of the capital letters A to F. *)
Theorem unique_hash_format (B : backends) (filepath : string) :
  String.length (unique_hash B filepath) = 40%nat
  ∧ Forall (fun c => is_upper_hex c = true) (list_ascii_of_string (unique_hash B filepath)).
Proof. apply upper_hexdigest_spec. Qed.

(** ** [generate_hashes]: time shifts, frequency order and size *)

Lemma sort_shift c peaks : sort (shift_peak c <$> peaks) = shift_peak c <$> sort peaks.
Proof.
  symmetry. apply sort_unique.
  - apply (StronglySorted_fmap _ peak_le peak_le); [|apply sort_sorted].
    intros [f1 t1] [f2 t2]. unfold peak_le, shift_peak. simpl. lia.
  - by rewrite sort_perm.
Qed.

Lemma target_zone_pairs_fmap (f : peak → peak) zone sorted :
  target_zone_pairs zone (f <$> sorted)
  = prod_map f f <$> target_zone_pairs zone sorted.
Proof.
  induction sorted as [|a rest IH]; [done|].
  rewrite fmap_cons. cbn [target_zone_pairs].
  rewrite fmap_app, IH, <- fmap_take, <- !list_fmap_compose. done.
Qed.

Lemma filter_delta_shift c (pairs : list (peak * peak)) :
  filter delta_in_bounds (prod_map (shift_peak c) (shift_peak c) <$> pairs)
  = prod_map (shift_peak c) (shift_peak c) <$> filter delta_in_bounds pairs.
Proof.
  induction pairs as [|[a b] pairs IH]; [done|].
  rewrite fmap_cons, !filter_cons, IH.
  assert (H : delta_in_bounds (prod_map (shift_peak c) (shift_peak c) (a, b))
              ↔ delta_in_bounds (a, b)).
  { unfold delta_in_bounds, t_delta, shift_peak. simpl. lia. }
  destruct (decide (delta_in_bounds (a, b))) as [Hd|Hd].
  - by rewrite decide_True by (by apply H).
  - by rewrite decide_False by (by rewrite H).
Qed.

Lemma record_of_shift c (pair : peak * peak) :
  record_of (prod_map (shift_peak c) (shift_peak c) pair) = shift_record c (record_of pair).
Proof.
  destruct pair as [[f1 t1] [f2 t2]].
  unfold record_of, shift_record, descriptor, t_delta, shift_peak. simpl.
  by replace (t2 + c - (t1 + c)) with (t2 - t1) by lia.
Qed.

Lemma generate_hashes_shift_eq c peaks fan_value :
  generate_hashes (shift_peak c <$> peaks) fan_value
  = shift_record c <$> generate_hashes peaks fan_value.
Proof.
  rewrite !generate_hashes_pairs, sort_shift, target_zone_pairs_fmap, filter_delta_shift.
  rewrite <- !list_fmap_compose. apply list_fmap_ext. intros _ pair _. simpl.
  apply record_of_shift.
Qed.

(** Moving every peak by the same number [c] of time bins leaves every
    hash as it is and moves every anchor time by [c]: the records come out
    in the same order, each [c] later. *)
Theorem generate_hashes_time_shift :
  ∀ (c : Z) (peaks : list peak) (fan_value : Z),
    generate_hashes ((fun p : peak => (p.1, p.2 + c)) <$> peaks) fan_value
    = (fun r : hash_record => (r.1, r.2 + c)) <$> generate_hashes peaks fan_value.
Proof. exact generate_hashes_shift_eq. Qed.

Lemma target_zone_pairs_sorted zone (sorted : list peak) :
  StronglySorted peak_le sorted →
  Forall (fun pair : peak * peak =>
            pair.1 ∈ sorted ∧ pair.2 ∈ sorted ∧ peak_le pair.1 pair.2)
         (target_zone_pairs zone sorted).
Proof.
  induction 1 as [|a rest Hs IH Ha]; simpl; [constructor|].
  apply Forall_app. split.
  - apply Forall_fmap, Forall_forall. intros b Hb. simpl.
    assert (Hin : b ∈ rest) by (by apply (subseteq_take zone rest)).
    split; [left|]. split; [by right|]. eapply Forall_forall in Ha; eauto.
  - eapply Forall_impl; [exact IH|]. intros pair (H1 & H2 & H3).
    split; [by right|]. split; [by right|done].
Qed.

Lemma length_target_zone_pairs zone (sorted : list peak) :
  (length (target_zone_pairs zone sorted) ≤ length sorted * zone)%nat.
Proof.
  induction sorted as [|a rest IH]; simpl; [lia|].
  rewrite length_app, length_fmap, length_take. lia.
Qed.

(** Every record comes from two peaks of the input, an anchor and a target:
    the anchor is no higher in frequency than the target, the target is no
    earlier than the anchor and at most 200 time bins after it; and there
    are at most [len(peaks) * max(fan_value - 1, 0)] records. *)
Theorem generate_hashes_pairs_ordered :
  ∀ (peaks : list peak) (fan_value : Z),
    Forall (fun r : hash_record =>
              ∃ anchor target : peak,
                anchor ∈ peaks ∧ target ∈ peaks
                ∧ anchor.1 ≤ target.1
                ∧ 0 ≤ target.2 - anchor.2 ≤ 200
                ∧ r = record_of (anchor, target))
           (generate_hashes peaks fan_value)
    ∧ Z.of_nat (length (generate_hashes peaks fan_value))
      ≤ Z.of_nat (length peaks) * Z.max (fan_value - 1) 0.
Proof.
  intros peaks fan_value. rewrite generate_hashes_pairs. split.
  - apply Forall_fmap.
    pose proof (target_zone_pairs_sorted (Z.to_nat fan_value - 1) (sort peaks)
                  (sort_sorted peaks)) as Hall.
    apply Forall_forall. intros [anchor target] Hpair.
    apply list_elem_of_filter in Hpair as [Hd Hpair].
    eapply Forall_forall in Hall; [|exact Hpair]. destruct Hall as (Ha & Ht & Hle).
    simpl in *. exists anchor, target.
    rewrite (sort_perm peaks) in Ha, Ht.
    repeat split; try done.
    + unfold peak_le in Hle. lia.
    + apply Hd.
    + apply Hd.
  - rewrite length_fmap.
    assert (Hlen : (length (filter delta_in_bounds
                              (target_zone_pairs (Z.to_nat fan_value - 1) (sort peaks)))
                    ≤ length peaks * (Z.to_nat fan_value - 1))%nat).
    { etrans; [apply length_filter|].
      etrans; [apply length_target_zone_pairs|].
      by rewrite (Permutation_length (sort_perm peaks)). }
    replace (Z.max (fan_value - 1) 0) with (Z.of_nat (Z.to_nat fan_value - 1)) by lia.
    rewrite <- Nat2Z.inj_mul. by apply Nat2Z.inj_le.
Qed.

(** ** [align_matches] and the order of the matches *)

Lemma tally_perm matches1 matches2 sid diff :
  matches1 ≡ₚ matches2 → tally matches1 sid diff = tally matches2 sid diff.
Proof. intros Hp. unfold tally. by rewrite Hp. Qed.

Lemma align_loop_max matches :
  matches ≠ [] →
  tally matches (song_id (align_loop matches)) (largest (align_loop matches))
  = largest_count (align_loop matches).
Proof.
  intros Hne. destruct (align_loop_invariant matches) as (Hmax & _ & Hfirst).
  destruct (Hfirst Hne) as (k & _ & Htk & _).
  apply Z.le_antisymm; [apply Hmax|]. rewrite <- Htk. apply tally_take_le.
Qed.

Lemma tally_le_length matches sid diff :
  tally matches sid diff ≤ Z.of_nat (length matches).
Proof. unfold tally. pose proof (length_filter (fun tup => tup = (sid, diff)) matches). lia. Qed.

Lemma largest_count_bounds matches :
  0 ≤ largest_count (align_loop matches) ≤ Z.of_nat (length matches)
  ∧ (matches ≠ [] → 1 ≤ largest_count (align_loop matches)).
Proof.
  destruct matches as [|[sid0 diff0] rest] eqn:E; [by split|]. rewrite <- E.
  assert (Hne : matches ≠ []) by (by rewrite E).
  pose proof (align_loop_max matches Hne) as Hw.
  destruct (align_loop_invariant matches) as (Hmax & _ & _).
  specialize (Hmax sid0 diff0).
  assert (1 ≤ tally matches sid0 diff0).
  { rewrite E. unfold tally. rewrite filter_cons, decide_True by done. simpl. lia. }
  pose proof (tally_le_length matches (song_id (align_loop matches))
                (largest (align_loop matches))).
  split; [lia|]. intros _. lia.
Qed.

Lemma largest_count_perm matches1 matches2 :
  matches1 ≡ₚ matches2 →
  largest_count (align_loop matches1) = largest_count (align_loop matches2).
Proof.
  intros Hp. destruct (decide (matches1 = [])) as [->|Hne1].
  { by apply Permutation_nil_l in Hp as ->. }
  assert (Hne2 : matches2 ≠ []).
  { intros ->. by apply Permutation_nil_r in Hp. }
  pose proof (align_loop_max matches1 Hne1) as H1.
  pose proof (align_loop_max matches2 Hne2) as H2.
  destruct (align_loop_invariant matches1) as (Hmax1 & _ & _).
  destruct (align_loop_invariant matches2) as (Hmax2 & _ & _).
  apply Z.le_antisymm.
  - rewrite <- H1, (tally_perm _ _ _ _ Hp). apply Hmax2.
  - rewrite <- H2, <- (tally_perm _ _ _ _ Hp). apply Hmax1.
Qed.

Lemma align_loop_unique_max matches sid diff :
  (∀ sid' diff', (sid', diff') ≠ (sid, diff) →
                 tally matches sid' diff' < tally matches sid diff) →
  best (align_loop matches) = (diff, tally matches sid diff, sid).
Proof.
  intros Huniq.
  assert (Hne : matches ≠ []).
  { intros ->.
    assert (Hother : (sid + 1, diff) ≠ (sid, diff)) by (intros [= ?]; lia).
    specialize (Huniq _ _ Hother). rewrite !tally_nil in Huniq. lia. }
  pose proof (align_loop_max matches Hne) as Hw.
  destruct (align_loop_invariant matches) as (Hmax & _ & _).
  specialize (Hmax sid diff).
  destruct (decide ((song_id (align_loop matches), largest (align_loop matches))
                    = (sid, diff))) as [Heq|Hneq].
  - injection Heq as Hs Hl. unfold best. rewrite <- Hw, Hs, Hl. done.
  - specialize (Huniq _ _ Hneq). lia.
Qed.

(** The confidence [align_matches] reports is the largest number of
    occurrences of one (song, difference) pair among the matches, so it is
    the same for every order of the matches; it is at least 1 when there is
    a match and never more than the number of matches. *)
Theorem align_confidence_order_independent (matches1 matches2 : list (Z * Z)) :
  matches1 ≡ₚ matches2 →
  largest_count (align_loop matches1) = largest_count (align_loop matches2)
  ∧ (∀ (get_song_by_id : catalog) info1 info2,
       align_matches get_song_by_id matches1 = Ok (Some info1) →
       align_matches get_song_by_id matches2 = Ok (Some info2) →
       CONFIDENCE info1 = CONFIDENCE info2)
  ∧ 0 ≤ largest_count (align_loop matches1) ≤ Z.of_nat (length matches1)
  ∧ (matches1 ≠ [] → 1 ≤ largest_count (align_loop matches1)).
Proof.
  intros Hp. pose proof (largest_count_perm _ _ Hp) as Hc.
  split; [done|]. split; [|apply largest_count_bounds].
  intros db info1 info2. unfold align_matches. cbv zeta.
  destruct (db (song_id (align_loop matches1))); [|done].
  destruct (db (song_id (align_loop matches2))); [|by destruct (nseconds _)].
  destruct (nseconds (largest (align_loop matches1))); [|done].
  destruct (nseconds (largest (align_loop matches2))); [|done].
  by intros [= <-] [= <-].
Qed.

Lemma align_confidence_order_independent_witness :
  [(1, 7); (2, 9); (1, 7)] ≡ₚ [(2, 9); (1, 7); (1, 7)]
  ∧ largest_count (align_loop [(1, 7); (2, 9); (1, 7)])
    = largest_count (align_loop [(2, 9); (1, 7); (1, 7)]).
Proof.
  assert (Hp : [(1, 7); (2, 9); (1, 7)] ≡ₚ [(2, 9); (1, 7); (1, 7)])
    by apply perm_swap.
  split; [exact Hp|].
  destruct (align_confidence_order_independent _ _ Hp) as (H & _). exact H.
Defined.

(** With a tie the winner depends on the order: the pair that reaches the
    count first keeps it. *)
Example align_loop_tie_order :
  best (align_loop [(1, 7); (2, 9)]) = (7, 1, 1)
  ∧ best (align_loop [(2, 9); (1, 7)]) = (9, 1, 2).
Proof. split; vm_compute; reflexivity. Qed.

(** When one (song, difference) pair occurs strictly more often than
    every other, [align_matches] elects it whatever the order of the matches:
    permuting the matches does not change the result. *)
Theorem align_matches_unique_maximum (get_song_by_id : catalog)
    (matches1 matches2 : list (Z * Z)) (sid diff : Z) :
  matches1 ≡ₚ matches2 →
  (∀ sid' diff', (sid', diff') ≠ (sid, diff) →
                 tally matches1 sid' diff' < tally matches1 sid diff) →
  best (align_loop matches1) = (diff, tally matches1 sid diff, sid)
  ∧ best (align_loop matches2) = (diff, tally matches1 sid diff, sid)
  ∧ align_matches get_song_by_id matches1 = align_matches get_song_by_id matches2.
Proof.
  intros Hp Huniq.
  pose proof (align_loop_unique_max matches1 sid diff Huniq) as H1.
  assert (H2 : best (align_loop matches2) = (diff, tally matches1 sid diff, sid)).
  { rewrite (tally_perm _ _ sid diff Hp). apply align_loop_unique_max.
    intros sid' diff' Hne. rewrite <- !(tally_perm _ _ _ _ Hp). by apply Huniq. }
  split; [done|]. split; [done|].
  unfold best in H1, H2. injection H1 as Hl1 Hc1 Hs1. injection H2 as Hl2 Hc2 Hs2.
  unfold align_matches. cbv zeta. by rewrite Hl1, Hc1, Hs1, Hl2, Hc2, Hs2.
Qed.

Lemma align_matches_unique_maximum_witness :
  [(1, 7); (2, 9); (1, 7)] ≡ₚ [(2, 9); (1, 7); (1, 7)]
  ∧ best (align_loop [(2, 9); (1, 7); (1, 7)]) = (7, 2, 1)
  ∧ align_matches catalog_with_song_one [(1, 7); (2, 9); (1, 7)]
    = align_matches catalog_with_song_one [(2, 9); (1, 7); (1, 7)].
Proof.
  assert (Hp : [(1, 7); (2, 9); (1, 7)] ≡ₚ [(2, 9); (1, 7); (1, 7)])
    by apply perm_swap.
  assert (Huniq : ∀ sid' diff', (sid', diff') ≠ (1, 7) →
            tally [(1, 7); (2, 9); (1, 7)] sid' diff' < tally [(1, 7); (2, 9); (1, 7)] 1 7).
  { intros sid' diff' Hne. change (tally [(1, 7); (2, 9); (1, 7)] 1 7) with 2.
    unfold tally. rewrite !filter_cons, filter_nil.
    repeat case_decide; simpl; try lia; congruence. }
  split; [exact Hp|].
  destruct (align_matches_unique_maximum catalog_with_song_one _ _ 1 7 Hp Huniq)
    as (_ & H2 & H3).
  split; [exact H2|exact H3].
Defined.

(** ** The peaks [get_2D_peaks] extracts *)

Lemma StronglySorted_sublist {A} (R : A → A → Prop) (l k : list A) :
  l `sublist_of` k → StronglySorted R k → StronglySorted R l.
Proof.
  induction 1 as [|x l k Hsub IH|x l k Hsub IH]; intros Hs.
  - constructor.
  - apply StronglySorted_inv in Hs as [Hs Hall]. constructor; [by apply IH|].
    rewrite Forall_forall in Hall |- *. intros y Hy. apply Hall.
    by eapply elem_of_sublist.
  - apply StronglySorted_inv in Hs as [Hs _]. by apply IH.
Qed.

Lemma StronglySorted_seq (start len : nat) : StronglySorted lt (seq start len).
Proof.
  revert start. induction len as [|len IH]; intros start; simpl; constructor; [apply IH|].
  apply Forall_forall. intros i Hi%elem_of_seq. lia.
Qed.

Lemma true_columns_sorted row : StronglySorted lt (true_columns row).
Proof.
  apply (StronglySorted_sublist _ _ (seq 0 (length row)));
    [apply sublist_filter|apply StronglySorted_seq].
Qed.

Lemma elem_of_true_columns row i : i ∈ true_columns row ↔ row !! i = Some true.
Proof.
  unfold true_columns. rewrite list_elem_of_filter, elem_of_seq. split; [tauto|].
  intros Hi. split; [done|]. apply lookup_lt_Some in Hi. lia.
Qed.

Lemma elem_of_where_from j mask j' i :
  (j', i) ∈ where_from j mask ↔ (j ≤ j')%nat ∧ cell mask (j' - j) i = Some true.
Proof.
  revert j. induction mask as [|row rest IH]; intros j; simpl.
  - rewrite elem_of_nil. unfold cell. rewrite lookup_nil. simpl.
    split; [done|]. by intros [_ ?].
  - rewrite elem_of_app, list_elem_of_fmap, IH. unfold cell. split.
    + intros [(i' & [= -> ->] & Hi)|[Hle Hc]].
      * split; [lia|]. rewrite Nat.sub_diag. simpl. by apply elem_of_true_columns.
      * split; [lia|]. by replace (j' - j)%nat with (S (j' - S j)) by lia.
    + intros [Hle Hc]. destruct (decide (j' = j)) as [->|Hne].
      * left. exists i. split; [done|]. rewrite Nat.sub_diag in Hc. simpl in Hc.
        by apply elem_of_true_columns.
      * right. split; [lia|]. by replace (j' - j)%nat with (S (j' - S j)) in Hc by lia.
Qed.

Lemma where_from_sorted j mask : StronglySorted cell_lt (where_from j mask).
Proof.
  revert j. induction mask as [|row rest IH]; intros j; simpl; [constructor|].
  apply StronglySorted_app. split; [|split; [|apply IH]].
  - intros c1 c2 (i1 & -> & _)%list_elem_of_fmap Hc2. destruct c2 as [j2 i2].
    apply elem_of_where_from in Hc2 as [Hle _]. left. simpl. lia.
  - eapply StronglySorted_fmap; [|apply true_columns_sorted].
    intros i1 i2 Hlt. right. simpl. done.
Qed.

Lemma zip_fmap_same {A B C} (f : A → B) (g : A → C) (l : list A) :
  zip (f <$> l) (g <$> l) = (fun x => (f x, g x)) <$> l.
Proof. induction l as [|x l IH]; [done|]. csimpl. f_equal. exact IH. Qed.

Lemma fst_zip_take {A B} (l : list A) (k : list B) :
  (zip l k).*1 = take (length k) l.
Proof.
  revert k. induction l as [|x l IH]; intros [|y k]; simpl; try done.
  by rewrite IH.
Qed.

(** The peaks are some of the true cells of the mask, in their order. *)
Lemma get_2D_peaks_sublist S arr2D amp_min :
  get_2D_peaks S arr2D amp_min
  `sublist_of` ((fun c : nat * nat => (Z.of_nat c.1, Z.of_nat c.2))
                  <$> where_from 0 (detected_peaks S arr2D)).
Proof.
  unfold get_2D_peaks, np_where. cbv zeta.
  set (cells := where_from 0 (detected_peaks S arr2D)).
  set (amps := bool_index arr2D (detected_peaks S arr2D)).
  set (kept := filter _ _).
  rewrite <- !list_fmap_compose, zip_fmap_same.
  transitivity ((fun c : nat * nat => (Z.of_nat c.2, Z.of_nat c.1)) <$> kept.*1).
  { rewrite <- list_fmap_compose. done. }
  transitivity ((fun c : nat * nat => (Z.of_nat c.2, Z.of_nat c.1))
                  <$> zip cells.*2 cells.*1).
  - apply fmap_sublist. transitivity (zip (zip cells.*2 cells.*1) amps).*1.
    + apply fmap_sublist. apply sublist_filter.
    + rewrite fst_zip_take. apply sublist_take.
  - rewrite zip_fmap_same, <- list_fmap_compose. done.
Qed.

Lemma cells_peak_lt (cells : list (nat * nat)) :
  StronglySorted cell_lt cells →
  StronglySorted peak_lt ((fun c : nat * nat => (Z.of_nat c.1, Z.of_nat c.2)) <$> cells).
Proof.
  apply StronglySorted_fmap. intros [j1 i1] [j2 i2]. unfold cell_lt, peak_lt. simpl. lia.
Qed.

Lemma peak_lt_le_sorted l : StronglySorted peak_lt l → StronglySorted peak_le l.
Proof.
  induction 1 as [|p l Hs IH Hall]; constructor; [done|].
  eapply Forall_impl; [exact Hall|]. intros q. unfold peak_lt, peak_le. lia.
Qed.

Lemma peak_lt_NoDup l : StronglySorted peak_lt l → NoDup l.
Proof.
  induction 1 as [|p l Hs IH Hall]; constructor; [|done].
  intros Hin. rewrite Forall_forall in Hall. specialize (Hall p Hin).
  unfold peak_lt in Hall. lia.
Qed.

Lemma get_2D_peaks_strictly_sorted S arr2D amp_min :
  StronglySorted peak_lt (get_2D_peaks S arr2D amp_min).
Proof.
  eapply StronglySorted_sublist; [apply get_2D_peaks_sublist|].
  apply cells_peak_lt, where_from_sorted.
Qed.

(** The peaks [get_2D_peaks] returns are in strictly ascending tuple
    order (by frequency bin, then by time bin) and without repetition,
    whatever the filters and the array; so [peaks.sort()] in
    [generate_hashes] leaves them as they are, and the records of
    [generate_hashes(get_2D_peaks(...))] are those of the pairs of each
    returned peak with the [fan_value - 1] peaks returned after it. *)
Theorem get_2D_peaks_already_sorted (S : scipy) (arr2D : list (list float))
    (amp_min : float) (fan_value : Z) :
  let peaks := get_2D_peaks S arr2D amp_min in
  StronglySorted peak_lt peaks
  ∧ NoDup peaks
  ∧ sort peaks = peaks
  ∧ generate_hashes peaks fan_value
    = record_of <$> filter delta_in_bounds
        (target_zone_pairs (Z.to_nat fan_value - 1) peaks).
Proof.
  intros peaks. pose proof (get_2D_peaks_strictly_sorted S arr2D amp_min) as Hs.
  fold peaks in Hs.
  assert (Hsort : sort peaks = peaks).
  { symmetry. apply sort_unique; [by apply peak_lt_le_sorted|done]. }
  split; [done|]. split; [by apply peak_lt_NoDup|]. split; [done|].
  by rewrite generate_hashes_pairs, Hsort.
Qed.

Lemma cell_elementwise {A B C} (f : A → B → C) a b j i :
  cell (elementwise f a b) j i
  = cell a j i ≫= fun x => cell b j i ≫= fun y => Some (f x y).
Proof.
  unfold cell, elementwise. rewrite lookup_zip_with.
  destruct (a !! j) as [ra|]; simpl; [|done].
  destruct (b !! j) as [rb|]; simpl.
  - rewrite lookup_zip_with. by destruct (ra !! i).
  - by destruct (ra !! i).
Qed.

Lemma same_shape_elementwise {A B C D} (f : A → B → C) a b (d : list (list D)) :
  same_shape a d → same_shape b d → same_shape (elementwise f a b) d.
Proof.
  unfold same_shape, elementwise. intros Ha. revert b.
  induction Ha as [|ra rd a d Hlen Ha IH]; intros b Hb; inversion Hb as [|rb ? b' ? Hlen' Hb']; subst.
  - constructor.
  - simpl. constructor; [|by apply IH].
    rewrite length_zip_with. lia.
Qed.

Lemma same_shape_sym {A B} (a : list (list A)) (b : list (list B)) :
  same_shape a b → same_shape b a.
Proof. unfold same_shape. induction 1; constructor; auto. Qed.

Lemma omap_lookup_Forall2 (row : list float) (l : list nat) :
  Forall (fun i => (i < length row)%nat) l →
  Forall2 (fun i a => row !! i = Some a) l (omap (fun i => row !! i) l).
Proof.
  induction 1 as [|i l Hi Hl IH]; [constructor|].
  apply lookup_lt_is_Some in Hi as [a Ha]. simpl. rewrite Ha. by constructor.
Qed.

(** The values selected by a mask of the array's shape go with its true
    cells. *)
Lemma bool_index_where j arr2D mask :
  same_shape arr2D mask →
  Forall2 (fun (c : nat * nat) a => (j ≤ c.1)%nat ∧ cell arr2D (c.1 - j) c.2 = Some a)
          (where_from j mask) (bool_index arr2D mask).
Proof.
  unfold same_shape. intros Hs. revert j.
  induction Hs as [|row mrow arr2D mask Hlen Hs IH]; intros j; [constructor|].
  unfold bool_index. simpl. fold (bool_index arr2D mask).
  apply Forall2_app.
  - apply Forall2_fmap_l.
    eapply Forall2_impl;
      [apply omap_lookup_Forall2|].
    + apply Forall_forall. intros i Hi%elem_of_true_columns.
      apply lookup_lt_Some in Hi. lia.
    + intros i a Ha. simpl. split; [lia|]. unfold cell.
      by rewrite Nat.sub_diag.
  - eapply Forall2_impl; [apply (IH (S j))|].
    intros [j' i] a [Hle Hc]. simpl in *. split; [lia|].
    unfold cell in *. by replace (j' - j)%nat with (S (j' - S j)) by lia.
Qed.

Lemma elem_of_zip_cells {A} (R : nat * nat → A → Prop) cells amps (x : nat * nat * A) :
  Forall2 R cells amps →
  x ∈ zip (zip cells.*2 cells.*1) amps
  ↔ ∃ c, c ∈ cells ∧ x.1 = (c.2, c.1) ∧ (x ∈ zip (zip cells.*2 cells.*1) amps) ∧ R c x.2.
Proof.
  intros HR. split; [|by intros (_ & _ & _ & ? & _)].
  induction HR as [|c a cells amps Hca HR IH]; csimpl.
  - by intros ?%elem_of_nil.
  - intros [->|Hin]%elem_of_cons.
    + exists c. split; [left|]. split; [done|]. split; [left|done].
    + destruct (IH Hin) as (c' & Hc' & Hx & _ & HRc). exists c'.
      split; [by right|]. split; [done|]. split; [by right|done].
Qed.

Lemma zip_cells_complete {A} (R : nat * nat → A → Prop) cells amps c :
  Forall2 R cells amps → c ∈ cells →
  ∃ a, (c.2, c.1, a) ∈ zip (zip cells.*2 cells.*1) amps ∧ R c a.
Proof.
  induction 1 as [|c' a cells amps Hca HR IH]; csimpl.
  - by intros ?%elem_of_nil.
  - intros [->|Hin]%elem_of_cons.
    + exists a. split; [left|done].
    + destruct (IH Hin) as (a' & Ha' & HRa). exists a'. split; [by right|done].
Qed.

(** With filters that keep the shape of their argument, as those of
    scipy do, a pair is returned by [get_2D_peaks] exactly when it is
    [(j, i)] for a cell [arr2D[j][i]] whose amplitude is above [amp_min]
    and for which exactly one of "equal to the filtered maximum" and "in
    the eroded background" holds; the first component is the row
    (frequency bin) and the second the column (time bin). *)
Theorem get_2D_peaks_cells (S : scipy) (arr2D : list (list float)) (amp_min : float)
    (f t : Z) :
  same_shape (maximum_filter S arr2D) arr2D →
  same_shape (binary_erosion S (background arr2D)) arr2D →
  (f, t) ∈ get_2D_peaks S arr2D amp_min
  ↔ ∃ (j i : nat) (amp m : float) (e : bool),
      f = Z.of_nat j ∧ t = Z.of_nat i
      ∧ cell arr2D j i = Some amp
      ∧ cell (maximum_filter S arr2D) j i = Some m
      ∧ cell (binary_erosion S (background arr2D)) j i = Some e
      ∧ xorb (SFeqb m amp) e = true
      ∧ SFltb amp_min amp = true.
Proof.
  intros Hmax Hero.
  assert (Hshape : same_shape arr2D (detected_peaks S arr2D)).
  { apply same_shape_sym. unfold detected_peaks.
    apply same_shape_elementwise; [|done].
    apply same_shape_elementwise; [done|].
    unfold same_shape. clear. induction arr2D; constructor; auto. }
  pose proof (bool_index_where 0 arr2D _ Hshape) as HR.
  assert (Hmask : ∀ j i, cell (detected_peaks S arr2D) j i = Some true
            ↔ ∃ amp m e, cell arr2D j i = Some amp
                ∧ cell (maximum_filter S arr2D) j i = Some m
                ∧ cell (binary_erosion S (background arr2D)) j i = Some e
                ∧ xorb (SFeqb m amp) e = true).
  { intros j i. unfold detected_peaks. rewrite !cell_elementwise. unfold float.
    destruct (@cell spec_float (maximum_filter S arr2D) j i) as [m|],
             (@cell spec_float arr2D j i) as [amp|],
             (cell (binary_erosion S (background arr2D)) j i) as [e|]; csimpl;
      try (split; [intros [=]|intros (? & ? & ? & ? & ? & ? & _); congruence]).
    split.
    - intros [= Hx]. exists amp, m, e. repeat split; done.
    - intros (amp' & m' & e' & [= <-] & [= <-] & [= <-] & Hx). by rewrite Hx. }
  unfold get_2D_peaks, np_where. cbv zeta.
  set (cells := where_from 0 (detected_peaks S arr2D)) in *.
  set (amps := bool_index arr2D (detected_peaks S arr2D)) in *.
  rewrite <- !list_fmap_compose, zip_fmap_same, list_elem_of_fmap.
  split.
  - intros ([[i j] amp] & [= -> ->] & [Hamp Hin]%list_elem_of_filter).
    apply (elem_of_zip_cells _ _ _ _ HR) in Hin as ([j' i'] & Hc & [= -> ->] & _ & _ & Hcell).
    simpl in *. rewrite Nat.sub_0_r in Hcell.
    apply elem_of_where_from in Hc as [_ Hc]. rewrite Nat.sub_0_r in Hc.
    apply Hmask in Hc as (amp' & m & e & Hamp' & Hm & He & Hx).
    assert (amp' = amp) as -> by congruence.
    exists j', i', amp, m, e. repeat split; done.
  - intros (j & i & amp & m & e & -> & -> & Hamp & Hm & He & Hx & Hgt).
    assert (Hc : (j, i) ∈ cells).
    { apply elem_of_where_from. split; [lia|]. rewrite Nat.sub_0_r.
      apply Hmask. exists amp, m, e. repeat split; done. }
    destruct (zip_cells_complete _ _ _ _ HR Hc) as (amp' & Hin & _ & Hcell).
    simpl in *. rewrite Nat.sub_0_r in Hcell.
    assert (amp' = amp) as -> by congruence.
    exists (i, j, amp). split; [done|]. apply list_elem_of_filter. by split.
Qed.

Lemma get_2D_peaks_cells_witness :
  (0, 1) ∈ get_2D_peaks identity_filters
             [[float_of_int 0; float_of_int 20]; [float_of_int 5; float_of_int 0]]
             (float_of_int 10).
Proof.
  apply (get_2D_peaks_cells identity_filters
           [[float_of_int 0; float_of_int 20]; [float_of_int 5; float_of_int 0]]
           (float_of_int 10) 0 1).
  - repeat constructor.
  - repeat constructor.
  - exists 0%nat, 1%nat, (float_of_int 20), (float_of_int 20), false.
    repeat split; reflexivity.
Defined.

(** ** The extensions of [find_files] *)

Lemma remove_dots_no_dot e : "."%char ∉ list_ascii_of_string (remove_dots e).
Proof.
  induction e as [|c e IH]; simpl; [apply not_elem_of_nil|].
  destruct (Ascii.eqb c ".") eqn:E; [done|].
  simpl. rewrite not_elem_of_cons. split; [|done].
  intros <-. by rewrite Ascii.eqb_refl in E.
Qed.

Lemma bind_app_perm {A B} (f g : A → list B) (l : list A) :
  (l ≫= fun x => f x ++ g x) ≡ₚ (l ≫= f) ++ (l ≫= g).
Proof.
  induction l as [|x l IH]; [done|].
  rewrite !bind_cons, IH.
  rewrite <- !(assoc_L (++)). f_equiv.
  rewrite !(assoc_L (++)). f_equiv. apply Permutation_app_comm.
Qed.

(** [find_files] compares file names with the extensions stripped of
    every dot: each yielded extension is dot-free and comes from a given
    one; two extension lists that agree after stripping (such as [".mp3"]
    and ["mp3"]) find the same files in the same order; and the files found
    for a concatenation of lists are, up to order, those found for each
    list, so that listing an extension both with and without its dot yields
    every matching file twice. *)
Theorem find_files_extensions (F : file_system) (path : string)
    (extensions extensions' : list string) :
  (∀ p extension, (p, extension) ∈ find_files F path extensions →
     ("."%char ∉ list_ascii_of_string extension)
     ∧ ∃ e, e ∈ extensions ∧ extension = remove_dots e)
  ∧ (remove_dots <$> extensions = remove_dots <$> extensions' →
     find_files F path extensions = find_files F path extensions')
  ∧ (find_files F path (extensions ++ extensions')
     ≡ₚ find_files F path extensions ++ find_files F path extensions')
  ∧ (∀ e, find_files F path [e; "." +:+ e]
          ≡ₚ find_files F path [e] ++ find_files F path [e]).
Proof.
  assert (Happ : ∀ exts1 exts2,
            find_files F path (exts1 ++ exts2)
            ≡ₚ find_files F path exts1 ++ find_files F path exts2).
  { intros exts1 exts2. unfold find_files. cbv zeta. rewrite fmap_app.
    rewrite <- bind_app_perm.
    assert (Hext : ∀ (f g : string * list string * list string → list (string * string)) l,
              (∀ x, f x = g x) → l ≫= f = l ≫= g).
    { intros f g l Hfg. induction l as [|x l IH]; [done|].
      by rewrite !bind_cons, Hfg, IH. }
    erewrite Hext; [done|].
    intros [[dirpath dirnames] files]. by rewrite bind_app. }
  assert (Heq : ∀ exts1 exts2, remove_dots <$> exts1 = remove_dots <$> exts2 →
            find_files F path exts1 = find_files F path exts2).
  { intros exts1 exts2 H. unfold find_files. cbv zeta. by rewrite H. }
  split; [|split; [apply Heq|split; [apply Happ|]]].
  - intros p extension Hin. unfold find_files in Hin. cbv zeta in Hin.
    apply list_elem_of_bind in Hin as ([[dirpath dirnames] files] & Hin & _).
    apply list_elem_of_bind in Hin as (ext & Hin & Hext).
    apply list_elem_of_bind in Hin as (f & Hin & _).
    apply list_elem_of_singleton in Hin as [= -> ->].
    apply list_elem_of_fmap in Hext as (e & -> & He).
    split; [apply remove_dots_no_dot|by exists e].
  - intros e. rewrite (Happ [e] ["." +:+ e]). f_equiv.
    rewrite (Heq ["." +:+ e] [e]); [done|]. simpl. done.
Qed.
